(** * Cascade prediction networks: events, cascades, trees, metrics, labels

    A shallow embedding of the core of the repository
    (src/cascade.py, src/build_tree.py, src/features.py, src/labels.py)
    and the properties its specification states about it, followed by
    the functions around that core (src/prefix.py, src/parse_data.py,
    src/evaluation.py, and the parts of src/models.py and src/main.py
    that do not call the learning library) and properties of theirs.

    Python values are modelled as follows.
    - [int] is [Z].
    - [float] is the kernel's binary64 [float]: comparisons and arithmetic
      are the IEEE ones the interpreter performs.
    - [Dict[int, Set[int]]] is [gmap Z (gset Z)]; [Dict[int, int]] is
      [gmap Z Z].
    - A dict whose iteration order is observed (the deduplication table of
      [earliest_event_by_user]) is an association list in insertion order.
    - Objects with identity (a [Cascade] and the list its [events]
      attribute points to) live in a store, see [Module Store].
    - A function that can raise returns a [result]. *)

From Stdlib Require Import ZArith Floats.
From stdpp Require Import base option list gmap sorting.

Local Open Scope Z_scope.

(** * Part I: the embedding *)

(** ** Results of fallible operations *)

Inductive exn : Type :=
  | KeyError
  | IndexError
  | ValueError
  | ZeroDivisionError.

(** [Raise e] is a Python exception; [OutOfFuel] is the one artefact of
    the embedding, a [while] loop cut by its fuel. *)
Inductive result (A : Type) : Type :=
  | Ok (a : A)
  | Raise (e : exn)
  | OutOfFuel.
Arguments Ok {A} a.
Arguments Raise {A} e.
Arguments OutOfFuel {A}.

#[global] Instance result_ret : MRet result := fun _ a => Ok a.
#[global] Instance result_bind : MBind result := fun _ _ f r =>
  match r with
  | Ok a => f a
  | Raise e => Raise e
  | OutOfFuel => OutOfFuel
  end.

(** [for x in l: body], threading the loop's state. *)
Fixpoint for_each {A S : Type} (l : list A) (body : S → A → result S)
    (s : S) : result S :=
  match l with
  | [] => Ok s
  | x :: l' => s' ← body s x; for_each l' body s'
  end.

(** [d[k]] on a dict: raises [KeyError] when the key is absent. *)
Definition getitem {V : Type} (m : gmap Z V) (k : Z) : result V :=
  match m !! k with
  | Some v => Ok v
  | None => Raise KeyError
  end.

(** [len(l)] *)
Definition len {A : Type} (l : list A) : Z := Z.of_nat (length l).

(** [l[i]] on a list or array: a negative index counts from the end,
    an index out of range raises [IndexError]. *)
Definition index {A : Type} (l : list A) (i : Z) : result A :=
  let j := if decide (i < 0) then len l + i else i in
  if decide (j < 0) then Raise IndexError
  else match l !! Z.to_nat j with
       | Some x => Ok x
       | None => Raise IndexError
       end.

(** Python slices [l[:k]] and [l[k:]] for an integer [k]: a negative
    bound counts from the end, and bounds are clamped to the list. *)
Definition slice_to {A : Type} (l : list A) (k : Z) : list A :=
  if decide (k < 0) then take (Z.to_nat (len l + k)) l
  else take (Z.to_nat k) l.

Definition slice_from {A : Type} (l : list A) (k : Z) : list A :=
  if decide (k < 0) then drop (Z.to_nat (len l + k)) l
  else drop (Z.to_nat k) l.

(** [float(n)] for an integer [n]: rounding to nearest, ties to even.
    (Python raises OverflowError beyond the binary64 range; the integers
    converted here are list lengths and sums of depths.) *)
Definition float_of_int (n : Z) : float :=
  SF2Prim (binary_normalize prec emax n 0 false).

(** [a / b] on integers: true division.  Python returns the correctly
    rounded quotient, which is the division of the two conversions as
    long as both operands are below 2^53 in absolute value. *)
Definition truediv (a b : Z) : result float :=
  if decide (b = 0) then Raise ZeroDivisionError
  else Ok (float_of_int a / float_of_int b)%float.

Definition sum_Z (l : list Z) : Z := foldl Z.add 0 l.

(** [max(l)]: raises [ValueError] on an empty sequence. *)
Definition max_Z (l : list Z) : result Z :=
  match l with
  | [] => Raise ValueError
  | x :: l' => Ok (foldl Z.max x l')
  end.

(** ** Events (src/cascade.py, class Event) *)

Record Event : Type := mkEvent {
  user : Z;
  parent : Z;
  time : float;
}.

(** A time that takes part in the order: every float but NaN. *)
Definition ordered_time (e : Event) : Prop := is_nan (time e) = false.

Definition time_le (a b : Event) : Prop := (time a <=? time b)%float = true.
Definition time_lt (a b : Event) : Prop := (time a <? time b)%float = true.

(** ** Insertion-ordered dict from user to event

    [by_user] in [earliest_event_by_user] is a dict whose values are read
    back in insertion order: assigning to a key that is present keeps its
    position, assigning to a new key appends it. *)

Definition odict : Type := list (Z * Event).

Fixpoint odict_get (d : odict) (k : Z) : option Event :=
  match d with
  | [] => None
  | (k', v) :: d' => if decide (k' = k) then Some v else odict_get d' k
  end.

Fixpoint odict_set (d : odict) (k : Z) (v : Event) : odict :=
  match d with
  | [] => [(k, v)]
  | (k', v') :: d' =>
      if decide (k' = k) then (k', v) :: d' else (k', v') :: odict_set d' k v
  end.

Definition odict_values (d : odict) : list Event := d.*2.

(** ** earliest_event_by_user (src/cascade.py) *)

(** The body of the loop:
    [if ev.user not in by_user or ev.time < by_user[ev.user].time:
         by_user[ev.user] = ev] *)
Definition dedup_step (by_user : odict) (ev : Event) : odict :=
  match odict_get by_user (user ev) with
  | None => odict_set by_user (user ev) ev
  | Some old =>
      if (time ev <? time old)%float then odict_set by_user (user ev) ev
      else by_user
  end.

Definition earliest_event_by_user (events : list Event) : list Event :=
  odict_values (foldl dedup_step [] events).

(** The users of a list in order of first appearance. *)
Fixpoint first_appearance (l : list Z) : list Z :=
  match l with
  | [] => []
  | x :: l' => x :: filter (λ y, y ≠ x) (first_appearance l')
  end.

(** ** Cascade.sort_events: [self.events.sort(key=lambda e: e.time)]

    [list.sort] is stable and compares keys with [<] only.  The model is
    the insertion sort CPython runs on short lists: each event, taken in
    input order, goes before the first event already placed whose time is
    strictly greater.  A stable sort has one possible result on times
    that are not NaN, this one; what [list.sort] makes of a NaN is not
    modelled, and the properties below that speak of an order assume
    there is none. *)

Fixpoint insert_by_time (e : Event) (l : list Event) : list Event :=
  match l with
  | [] => [e]
  | y :: l' =>
      if (time e <? time y)%float then e :: y :: l'
      else y :: insert_by_time e l'
  end.

Definition sort_by_time (l : list Event) : list Event :=
  foldl (λ acc e, insert_by_time e acc) [] l.

(** ** Cascade (src/cascade.py, class Cascade)

    The value of a cascade at one moment: what its attributes hold.
    Functions that only read a cascade take this value. *)

Record Cascade : Type := mkCascade {
  cid : Z;
  root : Z;
  publish_time : float;
  events : list Event;
}.

(** ** Cascade objects and their methods

    A [Cascade] is a mutable object and [events] refers to a mutable
    list: [sort_events] reorders that list in place, and two cascades
    whose [events] attribute pointed to one list would see each other's
    changes.  The store keeps both kinds of object by reference. *)

Module Store.

(** References are positions in the store. *)
Abbreviation ref := nat (only parsing).

Record object : Type := mkObject {
  obj_cid : Z;
  obj_root : Z;
  obj_publish_time : float;
  obj_events : ref;
}.

Record heap : Type := mkHeap {
  lists : list (list Event);
  objects : list object;
}.

(** A method call: it runs on a store and returns a value and the store
    it leaves.  [None] is a reference that points outside the store,
    which no Python program can hold. *)
Definition M (A : Type) : Type := heap → option (A * heap).

#[global] Instance M_ret : MRet M := fun _ a h => Some (a, h).
#[global] Instance M_bind : MBind M := fun _ _ f m h =>
  match m h with
  | Some (a, h') => f a h'
  | None => None
  end.

Definition get_object (r : ref) : M object := fun h =>
  o ← objects h !! r; Some (o, h).

Definition new_object (o : object) : M ref := fun h =>
  Some (length (objects h), mkHeap (lists h) (objects h ++ [o])).

(** [r.events = l] *)
Definition set_events (r l : ref) : M unit := fun h =>
  o ← objects h !! r;
  Some (tt, mkHeap (lists h)
              (<[r := mkObject (obj_cid o) (obj_root o)
                        (obj_publish_time o) l]> (objects h))).

Definition read_list (l : ref) : M (list Event) := fun h =>
  v ← lists h !! l; Some (v, h).

(** A mutation in place of the list object [l]. *)
Definition write_list (l : ref) (v : list Event) : M unit := fun h =>
  _ ← lists h !! l; Some (tt, mkHeap (<[l := v]> (lists h)) (objects h)).

Definition new_list (v : list Event) : M ref := fun h =>
  Some (length (lists h), mkHeap (lists h ++ [v]) (objects h)).

(** [Cascade(cid=.., root=.., publish_time=..)]: the dataclass gives the
    new object a fresh empty list ([default_factory=list]). *)
Definition new_Cascade (c r : Z) (t : float) : M ref :=
  l ← new_list []; new_object (mkObject c r t l).

(** [self.events.sort(key=lambda e: e.time)] *)
Definition sort_events (self : ref) : M unit :=
  o ← get_object self;
  evs ← read_list (obj_events o);
  write_list (obj_events o) (sort_by_time evs).

(** [self.events.append(Event(user=user, parent=parent, time=time))] *)
Definition add_event (self : ref) (u p : Z) (t : float) : M unit :=
  o ← get_object self;
  evs ← read_list (obj_events o);
  write_list (obj_events o) (evs ++ [mkEvent u p t]).

Definition n_events (self : ref) : M Z :=
  o ← get_object self;
  evs ← read_list (obj_events o);
  mret (len evs).

(** [l[:k].copy()]: the slice is a new list and so is its copy. *)
Definition slice_copy (l : ref) (k : Z) : M ref :=
  evs ← read_list l;
  s ← new_list (slice_to evs k);
  evs' ← read_list s;
  new_list evs'.

Definition get_k_prefix (self : ref) (k : Z) : M (option ref) :=
  _ ← sort_events self;
  o ← get_object self;
  evs ← read_list (obj_events o);
  if decide (len evs < k) then mret None
  else
    o ← get_object self;
    prefix ← new_Cascade (obj_cid o) (obj_root o) (obj_publish_time o);
    o' ← get_object self;
    l ← slice_copy (obj_events o') k;
    _ ← set_events prefix l;
    mret (Some prefix).

(** What the attributes of the object [r] hold in the store [h]. *)
Definition snapshot (h : heap) (r : ref) : option Cascade :=
  o ← objects h !! r;
  evs ← lists h !! obj_events o;
  Some (mkCascade (obj_cid o) (obj_root o) (obj_publish_time o) evs).

(** The store [get_k_prefix] leaves: the list of [self] sorted in place,
    and, when there is a prefix, three new lists (the one the constructor
    gives the new object, the slice and its copy) and one new object. *)
Definition sorted_heap (h : heap) (l : ref) (evs : list Event) : heap :=
  mkHeap (<[l := sort_by_time evs]> (lists h)) (objects h).

Definition prefix_heap (h : heap) (o : object) (evs : list Event) (k : Z)
    : heap :=
  let pre := slice_to (sort_by_time evs) k in
  mkHeap (<[obj_events o := sort_by_time evs]> (lists h) ++ [[]; pre; pre])
    (objects h ++
       [mkObject (obj_cid o) (obj_root o) (obj_publish_time o)
          (length (lists h) + 2)%nat]).

End Store.

(** ** build_tree (src/build_tree.py) *)

(** [adj.setdefault(k, set())] *)
Definition setdefault (adj : gmap Z (gset Z)) (k : Z) : gmap Z (gset Z) :=
  match adj !! k with
  | Some _ => adj
  | None => <[k := ∅]> adj
  end.

(** The body of the loop over the events. *)
Definition build_tree_step (adj : gmap Z (gset Z)) (event : Event)
    : result (gmap Z (gset Z)) :=
  let adj1 := setdefault adj (parent event) in
  let adj2 := setdefault adj1 (user event) in
  children ← getitem adj2 (parent event);
  Ok (<[parent event := children ∪ {[user event]}]> adj2).

Definition build_tree (cascade : Cascade) : result (gmap Z (gset Z)) :=
  for_each (events cascade) build_tree_step (setdefault ∅ (root cascade)).

(** ** compute_depths (src/build_tree.py) *)

(** The body of the loop over the children of [current]:
    [if depths[child] == -1 or depths[child] > depths[current] + 1:
         depths[child] = depths[current] + 1
         queue.append(child)] *)
Definition visit_child (current : Z) (st : gmap Z Z * list Z) (child : Z)
    : result (gmap Z Z * list Z) :=
  let '(depths, queue) := st in
  dchild ← getitem depths child;
  dcur ← getitem depths current;
  if decide (dchild = -1 ∨ dchild > dcur + 1)
  then Ok (<[child := dcur + 1]> depths, queue ++ [child])
  else Ok (depths, queue).

(** [adj.get(current, set())], iterated as a list. *)
Definition children_of (adj : gmap Z (gset Z)) (current : Z) : list Z :=
  elements (default ∅ (adj !! current)).

(** [while queue: current = queue.pop(0); for child in ...] *)
Fixpoint bfs_loop (adj : gmap Z (gset Z)) (fuel : nat)
    (depths : gmap Z Z) (queue : list Z) : result (gmap Z Z) :=
  match queue with
  | [] => Ok depths
  | current :: rest =>
      match fuel with
      | O => OutOfFuel
      | S fuel' =>
          st ← for_each (children_of adj current) (visit_child current)
                 (depths, rest);
          bfs_loop adj fuel' st.1 st.2
      end
  end.

Definition compute_depths_fuel (fuel : nat) (adj : gmap Z (gset Z))
    (root : Z) : result (gmap Z Z) :=
  let depths : gmap Z Z := (λ _, -1) <$> adj in
  match adj !! root with
  | None => Ok depths
  | Some _ => bfs_loop adj fuel (<[root := 0]> depths) [root]
  end.

(** The loop runs once per node it takes from the queue, and no node
    enters the queue twice: as many rounds as [adj] has keys are never
    exhausted ([compute_depths_never_out_of_fuel] below). *)
Definition compute_depths (adj : gmap Z (gset Z)) (root : Z)
    : result (gmap Z Z) :=
  compute_depths_fuel (size adj) adj root.

(** ** structural_metrics (src/build_tree.py) *)

Record Metrics : Type := mkMetrics {
  depth : float;
  avg_depth : float;
  leaves : float;
  branching_factor : float;
  wiener_root_avg : float;
}.

(** The mapping returned when there is no tree. *)
Definition no_tree : Metrics :=
  mkMetrics 0%float 0%float 1%float 0%float 0%float.

(** [len(adj.get(node, set()))] *)
Definition n_children (adj : gmap Z (gset Z)) (node : Z) : Z :=
  Z.of_nat (size (default (∅ : gset Z) (adj !! node))).

(** [[f(x) for x in l]] for an [f] that can raise. *)
Fixpoint map_result {A B : Type} (f : A → result B) (l : list A)
    : result (list B) :=
  match l with
  | [] => Ok []
  | x :: l' => y ← f x; ys ← map_result f l'; Ok (y :: ys)
  end.

Definition structural_metrics (adj : gmap Z (gset Z)) (root : Z)
    : result Metrics :=
  match adj !! root with
  | None => Ok no_tree
  | Some _ =>
      depths ← compute_depths adj root;
      let reachable : list Z :=
        (filter (λ nd : Z * Z, 0 ≤ nd.2) (map_to_list depths)).*1 in
      match reachable with
      | [] => Ok no_tree
      | _ =>
          ds ← map_result (getitem depths) reachable;
          max_depth ← max_Z ds;
          avg ← truediv (sum_Z ds) (len reachable);
          let leaf_nodes := filter (λ n, n_children adj n = 0) reachable in
          let n_leaves := float_of_int (len leaf_nodes) in
          let non_leaves := filter (λ n, n_children adj n > 0) reachable in
          branching ←
            match non_leaves with
            | [] => Ok 0%float
            | _ =>
                cs ← map_result
                       (λ n, s ← getitem adj n; Ok (Z.of_nat (size s)))
                       non_leaves;
                truediv (sum_Z cs) (len non_leaves)
            end;
          wiener ← truediv (sum_Z ds) (len reachable);
          Ok (mkMetrics (float_of_int max_depth) avg n_leaves branching
                wiener)
      end
  end.

(** ** The numpy functions of temporal_features

    [np.mean] and [np.var] add the elements up and divide by their
    number.  numpy fixes the order of the additions for itself: from
    left to right, as here, on fewer than 8 elements, and in pairwise
    partial sums from 8 elements on, where the last bits of a mean or a
    variance can differ from those of the fold.  On the arrays evaluated
    below every partial sum is an integer that binary64 holds exactly,
    so that order does not show, and no other property below depends on
    the value of a sum. *)

Module np.

Definition diff (a : list float) : list float :=
  zip_with (λ x y, y - x)%float a (tail a).

Definition sum (a : list float) : float := foldl PrimFloat.add 0%float a.

Definition mean (a : list float) : float :=
  (sum a / float_of_int (len a))%float.

Definition var (a : list float) : float :=
  let m := mean a in
  mean ((λ x, (x - m) * (x - m))%float <$> a).

End np.

(** ** temporal_features (src/features.py) *)

Record Temporal : Type := mkTemporal {
  time_to_k : float;
  mean_inter_time : float;
  var_inter_time : float;
  half_life_ratio : float;
  speed_change : float;
}.

Definition temporal_features (prefix : Cascade) : result Temporal :=
  let evs := events prefix in
  let k := len evs in
  t_k ← (if decide (k > 0) then e ← index evs (-1); Ok (time e)
         else Ok 0%float);
  if decide (k > 1) then
    let times := time <$> evs in
    let diffs := np.diff times in
    let mean_diff := np.mean diffs in
    let var_diff := np.var diffs in
    let half_k := k `div` 2 in
    t_half ← (if decide (half_k >= 1) then index times (half_k - 1)
              else Ok 0%float);
    let half_ratio :=
      if (0 <? t_k)%float then (t_half / t_k)%float else 0%float in
    let first_diffs :=
      if decide (half_k > 0) then slice_to diffs half_k else [] in
    let second_diffs :=
      if decide (half_k < len diffs)
      then slice_from diffs half_k else [] in
    let speed :=
      if decide (len second_diffs = 0) then 0%float
      else
        let first_mean :=
          if decide (len first_diffs > 0) then np.mean first_diffs
          else mean_diff in
        let second_mean := np.mean second_diffs in
        if (0 <? second_mean)%float then (first_mean / second_mean)%float
        else 0%float in
    Ok (mkTemporal t_k mean_diff var_diff half_ratio speed)
  else Ok (mkTemporal t_k 0%float 0%float 0%float 0%float).

(** ** construct_labels (src/labels.py) *)

Definition construct_labels (prefixes : list Cascade)
    (full_sizes : gmap Z Z) (k : Z) : list Z :=
  let threshold := 2 * k in
  foldl (λ labels pref,
           let final_size := default 0 (full_sizes !! cid pref) in
           labels ++ [if decide (final_size >= threshold) then 1 else 0])
        [] prefixes.

(** ** Vocabulary of the properties *)

(** [v] is a child of [u] in [adj]. *)
Definition edge (adj : gmap Z (gset Z)) (u v : Z) : Prop :=
  ∃ s, adj !! u = Some s ∧ v ∈ s.

(** [path adj r n v]: [v] is reached from [r] along [n] edges. *)
Inductive path (adj : gmap Z (gset Z)) (r : Z) : nat → Z → Prop :=
  | path_root : path adj r 0 r
  | path_step n u v : path adj r n u → edge adj u v → path adj r (S n) v.

Definition reachable_from (adj : gmap Z (gset Z)) (r v : Z) : Prop :=
  ∃ n, path adj r n v.

(** [n] is the length of a shortest path from [r] to [v]. *)
Definition distance (adj : gmap Z (gset Z)) (r : Z) (n : nat) (v : Z)
    : Prop :=
  path adj r n v ∧ ∀ m, path adj r m v → (n ≤ m)%nat.

(** A value of the specification of binary64 that takes part in the
    order. *)
Definition not_nan (x : spec_float) : Prop := x ≠ S754_nan.

(** Every child is a key: the adjacency mappings of the data model, and
    the ones [build_tree] returns. *)
Definition closed (adj : gmap Z (gset Z)) : Prop :=
  ∀ u v, edge adj u v → is_Some (adj !! v).

(** The same of the part of the mapping the traversal reads: every child
    of a node reachable from [r] is a key. *)
Definition reach_closed (adj : gmap Z (gset Z)) (r : Z) : Prop :=
  ∀ u v, reachable_from adj r u → edge adj u v → is_Some (adj !! v).

(** The event kept for a user: the first, in input order, of that user's
    events of least time.  No event of the user is strictly earlier, and
    none that precedes it in the input is as early.  Said with the
    comparisons the code makes, this holds of every float, NaN too. *)
Definition first_least (p : list Event) (r : Event) : Prop :=
  ∃ i : nat, p !! i = Some r
    ∧ (∀ e, e ∈ p → user e = user r → ¬ time_lt e r)
    ∧ (∀ (j : nat) e, (j < i)%nat → p !! j = Some e → user e = user r →
         ¬ time_le e r).

(** The [k] earliest events of [evs], in ascending order of time. *)
Definition k_earliest (evs pre : list Event) (k : Z) : Prop :=
  len pre = k
  ∧ StronglySorted time_le pre
  ∧ ∃ rest, pre ++ rest ≡ₚ evs ∧ ∀ a b, a ∈ pre → b ∈ rest → time_le a b.

(** The label of one prefix. *)
Definition label_of (full_sizes : gmap Z Z) (k : Z) (pref : Cascade) : Z :=
  if decide (default 0 (full_sizes !! cid pref) >= 2 * k) then 1 else 0.

(** ** Sample inputs *)

Definition sample_events : list Event :=
  [mkEvent 1 0 5%float; mkEvent 2 0 1%float; mkEvent 1 3 2%float;
   mkEvent 1 4 2%float].

(** A store with one cascade, whose three events are not in order of
    time. *)
Definition sample_heap : Store.heap :=
  Store.mkHeap
    [[mkEvent 1 0 5%float; mkEvent 2 0 1%float; mkEvent 3 2 2%float]]
    [Store.mkObject 7 0 100%float 0%nat].

Definition sample_cascade : Cascade :=
  mkCascade 7 0 100%float
    [mkEvent 1 0 1%float; mkEvent 2 1 2%float; mkEvent 3 0 3%float;
     mkEvent 5 4 4%float].

(** The tree of [sample_cascade]: 0 has the children 1 and 3, 1 has the
    child 2, and 4, which no event reaches, has the child 5. *)
Definition sample_tree : gmap Z (gset Z) :=
  <[0 := {[1; 3]}]> (<[1 := {[2]}]> (<[2 := ∅]> (<[3 := ∅]>
    (<[4 := {[5]}]> (<[5 := ∅]> ∅))))).

Definition c4_prefix : Cascade :=
  mkCascade 1 0 0%float
    [mkEvent 11 0 1%float; mkEvent 12 11 3%float; mkEvent 13 0 4%float;
     mkEvent 14 12 10%float].

(** A mapping with a child that is not a key, 5, where a traversal from
    0 does not come. *)
Definition loose_tree : gmap Z (gset Z) :=
  <[4 := {[5]}]> (<[0 := {[1]}]> {[1 := ∅]}).

(** ** Invariants of the loops *)

(** What the table of [earliest_event_by_user] holds once the events [p]
    have been read: its keys are the users of [p] in order of first
    appearance, and each holds the event kept for its user. *)
Definition dedup_inv (p : list Event) (d : odict) : Prop :=
  d.*1 = first_appearance (user <$> p)
  ∧ ∀ k v, odict_get d k = Some v → user v = k ∧ first_least p v.

(** The table is keyed by the user of the event it holds, once. *)
Definition keyed (d : odict) : Prop :=
  NoDup d.*1 ∧ Forall (λ kv, user kv.2 = kv.1) d.

(** What the adjacency mapping holds once the events [seen] have been
    read: the keys are the root and the parents and users of the events,
    the edges are the events. *)
Definition tree_of (r : Z) (seen : list Event) (adj : gmap Z (gset Z))
    : Prop :=
  (∀ x, is_Some (adj !! x)
     ↔ x = r ∨ ∃ e, e ∈ seen ∧ (x = parent e ∨ x = user e))
  ∧ (∀ a b, edge adj a b ↔ ∃ e, e ∈ seen ∧ parent e = a ∧ user e = b).

(** The depth recorded for [x], [-1] when none is. *)
Definition dep (depths : gmap Z Z) (x : Z) : Z := default (-1) (depths !! x).

(** The number of keys still at depth [-1]. *)
Definition undiscovered (depths : gmap Z Z) : nat :=
  size (filter (λ kv : Z * Z, kv.2 = -1) depths).

(** The queue lists its nodes by increasing depth. *)
Definition by_depth (depths : gmap Z Z) (queue : list Z) : Prop :=
  ∀ (i j : nat) x y, (i < j)%nat → queue !! i = Some x → queue !! j = Some y →
    dep depths x ≤ dep depths y.

(** What holds of every state of the traversal: the keys of [depths] are
    those of [adj], the root is at depth 0, and a depth other than [-1]
    is the length of a path from the root. *)
Definition recorded (adj : gmap Z (gset Z)) (r : Z) (depths : gmap Z Z)
    : Prop :=
  (∀ x, is_Some (depths !! x) ↔ is_Some (adj !! x))
  ∧ depths !! r = Some 0
  ∧ (∀ v, dep depths v ≠ -1 →
       0 ≤ dep depths v ∧ path adj r (Z.to_nat (dep depths v)) v).

(** The state at the head of the [while] loop.  A node that has a depth
    and has left the queue has all its children at most one level below
    it; the depths in the queue and elsewhere differ by one at most. *)
Definition at_head (adj : gmap Z (gset Z)) (r : Z) (fuel : nat)
    (depths : gmap Z Z) (queue : list Z) : Prop :=
  recorded adj r depths
  ∧ (∀ u v, u ∉ queue → dep depths u ≠ -1 → edge adj u v →
       dep depths v ≠ -1 ∧ dep depths v ≤ dep depths u + 1)
  ∧ (∃ b, 0 ≤ b ∧ (∀ q, q ∈ queue → b ≤ dep depths q)
       ∧ (∀ v, dep depths v ≤ b + 1))
  ∧ by_depth depths queue
  ∧ (length queue + undiscovered depths ≤ fuel)%nat.

(** The state inside the [for] loop over the children of [cur], a node
    of depth [d], once the children [seen] have been visited. *)
Definition visiting (adj : gmap Z (gset Z)) (r cur d : Z) (fuel : nat)
    (seen : list Z) (st : gmap Z Z * list Z) : Prop :=
  recorded adj r st.1
  ∧ dep st.1 cur = d ∧ 0 ≤ d
  ∧ (∀ u v, u ≠ cur → u ∉ st.2 → dep st.1 u ≠ -1 → edge adj u v →
       dep st.1 v ≠ -1 ∧ dep st.1 v ≤ dep st.1 u + 1)
  ∧ (∀ v, v ∈ seen → dep st.1 v ≠ -1 ∧ dep st.1 v ≤ d + 1)
  ∧ (∀ q, q ∈ st.2 → d ≤ dep st.1 q)
  ∧ (∀ v, dep st.1 v ≤ d + 1)
  ∧ by_depth st.1 st.2
  ∧ (length st.2 + undiscovered st.1 ≤ fuel)%nat.

(** The state when the queue is empty: every node that has a depth has
    its children at most one level below it. *)
Definition finished (adj : gmap Z (gset Z)) (r : Z) (depths : gmap Z Z)
    : Prop :=
  recorded adj r depths
  ∧ (∀ u v, dep depths u ≠ -1 → edge adj u v →
       dep depths v ≠ -1 ∧ dep depths v ≤ dep depths u + 1).

(** ** The rest of the pipeline

    The functions around the ones above: the other method of [Cascade],
    the callers of [get_k_prefix], [temporal_features], [build_tree],
    [structural_metrics] and [construct_labels], the parser that makes
    the cascades, and the two functions of the evaluation that compute
    without the learning library. *)

(** *** Cascade.unique_users (src/cascade.py) *)

(** [users = {self.root}; users.update(event.user for event in ...)] *)
Definition user_set (c : Cascade) : gset Z :=
  foldl (λ users event, users ∪ {[user event]}) {[root c]} (events c).

(** [sorted(users)]: the elements of a set of integers in ascending
    order.  Distinct integers have one ascending arrangement, so the
    sorting algorithm does not show. *)
Definition unique_users (c : Cascade) : list Z :=
  merge_sort Z.le (elements (user_set c)).

(** *** generate_prefix_cascades (src/prefix.py) *)

(** The loop over the cascades, from the list [prefixes] built so far. *)
Fixpoint prefix_loop (cascades : list nat) (k : Z) (prefixes : list nat)
    : Store.M (list nat) :=
  match cascades with
  | [] => mret prefixes
  | cascade :: rest =>
      pref ← Store.get_k_prefix cascade k;
      prefix_loop rest k
        (match pref with
         | Some p => prefixes ++ [p]
         | None => prefixes
         end)
  end.

Definition generate_prefix_cascades (cascades : list nat) (k : Z)
    : Store.M (list nat) :=
  prefix_loop cascades k [].

(** *** extract_features (src/features.py)

    The two dicts that are merged have distinct literal keys, those of
    [Temporal] and of [Metrics]; [num_nodes] is one more.  The merged
    dict is the record of them all. *)

Record Features : Type := mkFeatures {
  temporal : Temporal;
  structural : Metrics;
  num_nodes : float;
}.

(** Reading the attributes of an object. *)
Definition read_cascade (r : nat) : Store.M Cascade := fun h =>
  c ← Store.snapshot h r; Some (c, h).

Definition extract_features (prefix : nat) : Store.M (result Features) :=
  _ ← Store.sort_events prefix;
  c ← read_cascade prefix;
  mret (feat ← temporal_features c;
        G ← build_tree c;
        struct ← structural_metrics G (root c);
        Ok (mkFeatures feat struct (float_of_int (Z.of_nat (size G))))).

(** *** main (src/main.py): the final sizes

    [full_sizes = {c.cid: c.n_events() for c in cascades}]: a later
    cascade of the same cid replaces the entry of an earlier one. *)
Definition full_sizes_of (cascades : list Cascade) : gmap Z Z :=
  foldl (λ sizes c, <[cid c := len (events c)]> sizes) ∅ cascades.

(** *** label_distribution (src/evaluation.py)

    [Counter(labels)]: each element adds one to its count, a count that
    starts at 0. *)
Definition Counter (labels : list Z) : gmap Z Z :=
  foldl (λ counts x, <[x := default 0 (counts !! x) + 1]> counts) ∅ labels.

Definition label_distribution (labels : list Z) : gmap Z Z := Counter labels.

(** *** feature_importances (src/models.py)

    [pairs.sort(key=lambda x: x[1], reverse=True)]: for a sort in
    reverse CPython reverses the list, sorts it in ascending order with
    its stable sort (modelled as for [sort_events]) and reverses the
    result, which keeps elements of equal key in their input order. *)

Section KeySort.
Context {A : Type} (key : A → float).

Fixpoint insert_by_key (x : A) (l : list A) : list A :=
  match l with
  | [] => [x]
  | y :: l' =>
      if (key x <? key y)%float then x :: y :: l'
      else y :: insert_by_key x l'
  end.

Definition sort_by_key (l : list A) : list A :=
  foldl (λ acc x, insert_by_key x acc) [] l.

Definition sort_by_key_reverse (l : list A) : list A :=
  reverse (sort_by_key (reverse l)).

(** The order of the keys, the keys that take part in it, and the
    elements of key [t] in the order of the list. *)
Definition key_le (x y : A) : Prop := (key x <=? key y)%float = true.
Definition ordered_key (x : A) : Prop := is_nan (key x) = false.
Definition at_key (t : float) (l : list A) : list A :=
  filter (λ x, (key x =? t)%float = true) l.

End KeySort.

(** [importances] is the array [rf.feature_importances_] of the fitted
    model, [feature_names] any list. *)
Definition feature_importances {A : Type} (importances : list float)
    (feature_names : list A) (top_n : Z) : list (A * float) :=
  let pairs := zip feature_names importances in
  slice_to (sort_by_key_reverse snd pairs) top_n.

(** *** parse_dataset (src/parse_data.py)

    A [str] is the list of its code points, and the file is the list of
    its lines.  What [int] and [float] make of a string is taken as
    given: [None] stands for the ValueError that the parser catches.
    The warnings it logs are not part of the model. *)

Definition str : Type := list Z.

(** The code points that [str.strip] removes. *)
Definition is_space (c : Z) : bool :=
  bool_decide (c ∈ [9; 10; 11; 12; 13; 28; 29; 30; 31; 32; 133; 160; 5760;
                    8192; 8193; 8194; 8195; 8196; 8197; 8198; 8199; 8200;
                    8201; 8202; 8232; 8233; 8239; 8287; 12288]).

Fixpoint str_lstrip (s : str) : str :=
  match s with
  | [] => []
  | c :: s' => if is_space c then str_lstrip s' else s
  end.

Definition str_strip (s : str) : str :=
  reverse (str_lstrip (reverse (str_lstrip s))).

(** [s.split(sep)] for a separator of one character: the pieces between
    the occurrences of [sep], the empty ones too; one piece when [sep]
    does not occur. *)
Fixpoint str_split (sep : Z) (s : str) : list str :=
  match s with
  | [] => [[]]
  | c :: s' =>
      if decide (c = sep) then [] :: str_split sep s'
      else match str_split sep s' with
           | [] => [[c]]
           | w :: ws => (c :: w) :: ws
           end
  end.

Section Parse.
Variable int_of_str : str → option Z.
Variable float_of_str : str → option float.

(** The body of the loop over the entries of the retweet field. *)
Definition parse_item (root : Z) (events : list Event) (item : str)
    : result (list Event) :=
  if decide (item = []) then Ok events
  else
    match str_split 58 item with
    | [path_part; time_part] =>
        match float_of_str time_part with
        | None => Ok events
        | Some time_rel =>
            let users := str_split 47 path_part in
            if decide (users = []) then Ok events
            else
              match mapM int_of_str users with
              | None => Ok events
              | Some user_ids =>
                  link ←
                    (if decide (len user_ids = 1)
                     then child ← index user_ids 0; Ok (child, root)
                     else child ← index user_ids (-1);
                          parent ← index user_ids (-2);
                          Ok (child, parent));
                  Ok (events ++ [mkEvent link.1 link.2 time_rel])
              end
        end
    | _ => Ok events
    end.

(** The four numeric fields, [None] when one of them is not a number. *)
Definition parse_header (s0 s1 s2 s3 : str) : option (Z * Z * float * Z) :=
  cid ← int_of_str s0;
  root ← int_of_str s1;
  publish_time ← float_of_str s2;
  retweet_number ← int_of_str s3;
  Some (cid, root, publish_time, retweet_number).

(** The body of the loop over the lines. *)
Definition parse_line (cascades : list Cascade) (line : str)
    : result (list Cascade) :=
  let line := str_strip line in
  if decide (line = []) then Ok cascades
  else
    let parts := str_split 9 line in
    if decide (len parts < 5) then Ok cascades
    else
      s0 ← index parts 0;
      s1 ← index parts 1;
      s2 ← index parts 2;
      s3 ← index parts 3;
      match parse_header s0 s1 s2 s3 with
      | None => Ok cascades
      | Some (cid, root, publish_time, _) =>
          s4 ← index parts 4;
          events ← for_each (str_split 32 s4) (parse_item root) [];
          let deduped := earliest_event_by_user events in
          let sorted := sort_by_time deduped in
          if decide (len sorted = 0) then Ok cascades
          else Ok (cascades ++ [mkCascade cid root publish_time sorted])
      end.

Definition parse_dataset (lines : list str) : result (list Cascade) :=
  for_each lines parse_line [].

End Parse.

(** *** Vocabulary of the properties of the pipeline *)


(** The number of events of the object [c] in the store [h]. *)
Definition n_events_in (h : Store.heap) (c : nat) : Z :=
  match Store.snapshot h c with
  | Some sc => len (events sc)
  | None => 0
  end.

(** [p] is the prefix of length [k] of the cascade [c]: an object that
    the store [h0] did not hold, which has in [h] the cid, root and
    publish_time that [c] has in [h0], and for events the [k] earliest
    of [c], in a list that [h0] did not hold either. *)
Definition prefix_of (h0 h : Store.heap) (k : Z) (c p : nat) : Prop :=
  ∃ sc op pre,
    Store.snapshot h0 c = Some sc
    ∧ Store.objects h0 !! p = None
    ∧ Store.objects h !! p = Some op
    ∧ Store.lists h0 !! Store.obj_events op = None
    ∧ Store.lists h !! Store.obj_events op = Some pre
    ∧ Store.obj_cid op = cid sc ∧ Store.obj_root op = root sc
    ∧ Store.obj_publish_time op = publish_time sc
    ∧ k_earliest (events sc) pre k.

(** What a source cascade is after the calls: the same object; its list
    holds the same events. *)
Definition same_events (h0 h : Store.heap) (c : nat) : Prop :=
  ∃ o evs evs',
    Store.objects h0 !! c = Some o ∧ Store.objects h !! c = Some o
    ∧ Store.lists h0 !! Store.obj_events o = Some evs
    ∧ Store.lists h !! Store.obj_events o = Some evs'
    ∧ evs' ≡ₚ evs.

(** A store that calls of [get_k_prefix] on objects of [h0] lead to: the
    objects of [h0] are in it as they were, and so are its lists, their
    events possibly in another order. *)
Definition grown (h0 h : Store.heap) : Prop :=
  (∀ q oq, Store.objects h0 !! q = Some oq → Store.objects h !! q = Some oq)
  ∧ (∀ l v, Store.lists h0 !! l = Some v →
       ∃ v', Store.lists h !! l = Some v' ∧ v' ≡ₚ v).

(** The nodes [structural_metrics] calls reachable: the keys of [depths]
    with a depth of 0 or more, in the order of the mapping. *)
Definition reached (depths : gmap Z Z) : list Z :=
  (filter (λ nd : Z * Z, 0 ≤ nd.2) (map_to_list depths)).*1.

(** The events come in an order of propagation: the parent of each is
    the root or the user of an earlier event. *)
Definition well_rooted (r : Z) (evs : list Event) : Prop :=
  ∀ (i : nat) e, evs !! i = Some e →
    parent e = r
    ∨ ∃ (j : nat) e', (j < i)%nat ∧ evs !! j = Some e' ∧ user e' = parent e.

(** * Part II: properties *)

(** ** Order on binary64 values *)

Module FloatOrder.

(** The comparisons of the specification of floats, on which the
    primitive ones are defined. *)

Lemma SFeqb_refl_not_nan x : SFeqb x x = true → not_nan x.
Proof. by destruct x. Qed.

Lemma cmp_cont_eq (m1 m2 : positive) :
  PosDef.Pos.compare_cont Eq m1 m2 = (m1 ?= m2)%positive.
Proof. reflexivity. Qed.

Ltac sf_cases :=
  repeat match goal with
  | x : spec_float |- _ => destruct x
  | s : bool |- _ => destruct s
  end; cbn in *; try done.

Ltac cmp_cases :=
  intros; rewrite ?cmp_cont_eq in *;
  repeat match goal with
  | |- context [(?a ?= ?b)%Z] => destruct (Z.compare_spec a b); subst
  | H : context [(?a ?= ?b)%Z] |- _ => destruct (Z.compare_spec a b); subst
  | |- context [(?a ?= ?b)%positive] =>
      destruct (Pos.compare_spec a b); subst
  | H : context [(?a ?= ?b)%positive] |- _ =>
      destruct (Pos.compare_spec a b); subst
  end; cbn in *; try done; try lia.

Lemma SFltb_leb_total x y :
  not_nan x → not_nan y → SFltb x y = false → SFleb y x = true.
Proof.
  unfold not_nan, SFltb, SFleb. intros Hx Hy.
  sf_cases; cmp_cases.
Qed.

Lemma SFltb_leb x y : SFltb x y = true → SFleb x y = true.
Proof. unfold SFltb, SFleb. by destruct (SFcompare x y) as [[]|]. Qed.

Lemma SFltb_leb_trans x y z :
  SFltb x y = true → SFleb y z = true → SFltb x z = true.
Proof.
  unfold SFltb, SFleb.
  sf_cases; cmp_cases.
Qed.

Lemma SFltb_trans x y z :
  SFltb x y = true → SFltb y z = true → SFltb x z = true.
Proof.
  unfold SFltb.
  sf_cases; cmp_cases.
Qed.

Lemma SFleb_ltb_trans x y z :
  SFleb x y = true → SFltb y z = true → SFltb x z = true.
Proof.
  unfold SFltb, SFleb.
  sf_cases; cmp_cases.
Qed.

Lemma SFleb_ltb_total x y :
  not_nan x → not_nan y → SFleb x y = false → SFltb y x = true.
Proof.
  unfold not_nan, SFltb, SFleb. intros Hx Hy.
  sf_cases; cmp_cases.
Qed.

Lemma SFltb_irrefl x : SFltb x x = false.
Proof. unfold SFltb. sf_cases; cmp_cases. Qed.

Lemma SFleb_ltb_false x y : SFleb x y = true → SFltb y x = false.
Proof. unfold SFltb, SFleb. sf_cases; cmp_cases. Qed.

End FloatOrder.

(** The same facts on the primitive values, through the axioms that tie
    each primitive comparison to its specification. *)
Section PrimOrder.
Local Open Scope float_scope.
Import FloatOrder.

Lemma is_nan_false_spec (x : float) :
  is_nan x = false → not_nan (Prim2SF x).
Proof.
  unfold is_nan. intros H. apply negb_false_iff in H.
  rewrite FloatAxioms.eqb_spec in H. by apply SFeqb_refl_not_nan.
Qed.

Lemma ltb_false_leb (x y : float) :
  is_nan x = false → is_nan y = false → (x <? y) = false → (y <=? x) = true.
Proof.
  intros Hx Hy. rewrite FloatAxioms.ltb_spec, FloatAxioms.leb_spec.
  apply SFltb_leb_total; by apply is_nan_false_spec.
Qed.

Lemma ltb_true_leb (x y : float) : (x <? y) = true → (x <=? y) = true.
Proof.
  rewrite FloatAxioms.ltb_spec, FloatAxioms.leb_spec. apply SFltb_leb.
Qed.

Lemma ltb_leb_trans (x y z : float) :
  (x <? y) = true → (y <=? z) = true → (x <? z) = true.
Proof.
  rewrite !FloatAxioms.ltb_spec, FloatAxioms.leb_spec. apply SFltb_leb_trans.
Qed.

Lemma ltb_trans (x y z : float) :
  (x <? y) = true → (y <? z) = true → (x <? z) = true.
Proof. rewrite !FloatAxioms.ltb_spec. apply SFltb_trans. Qed.

Lemma leb_ltb_trans (x y z : float) :
  (x <=? y) = true → (y <? z) = true → (x <? z) = true.
Proof.
  rewrite !FloatAxioms.ltb_spec, FloatAxioms.leb_spec. apply SFleb_ltb_trans.
Qed.

Lemma leb_false_ltb (x y : float) :
  is_nan x = false → is_nan y = false → (x <=? y) = false → (y <? x) = true.
Proof.
  intros Hx Hy. rewrite FloatAxioms.ltb_spec, FloatAxioms.leb_spec.
  apply SFleb_ltb_total; by apply is_nan_false_spec.
Qed.

Lemma leb_ltb_false (x y : float) : (x <=? y) = true → (y <? x) = false.
Proof.
  rewrite FloatAxioms.ltb_spec, FloatAxioms.leb_spec. apply SFleb_ltb_false.
Qed.

Lemma ltb_irrefl (x : float) : (x <? x) = false.
Proof. rewrite FloatAxioms.ltb_spec. apply SFltb_irrefl. Qed.

End PrimOrder.

(** ** The insertion-ordered dict *)

Lemma odict_get_None (d : odict) (k : Z) : odict_get d k = None ↔ k ∉ d.*1.
Proof.
  induction d as [|[k' v] d IH]; simpl.
  - split; [intros _; apply not_elem_of_nil | done].
  - destruct (decide (k' = k)) as [->|Hne].
    + split; [done | intros []; left].
    + rewrite IH, not_elem_of_cons. split; [by intros ?; split | by intros []].
Qed.

Lemma odict_get_set (d : odict) (k k' : Z) (v : Event) :
  odict_get (odict_set d k v) k' =
  if decide (k = k') then Some v else odict_get d k'.
Proof.
  induction d as [|[k0 v0] d IH]; simpl.
  - by repeat case_decide.
  - destruct (decide (k0 = k)); simpl; [|rewrite IH];
      repeat case_decide; congruence.
Qed.

Lemma odict_set_absent (d : odict) (k : Z) (v : Event) :
  odict_get d k = None → odict_set d k v = d ++ [(k, v)].
Proof.
  induction d as [|[k0 v0] d IH]; simpl; [done|].
  case_decide; [done|]. intros Hk. by rewrite IH.
Qed.

Lemma odict_set_keys_present (d : odict) (k : Z) (v : Event) :
  is_Some (odict_get d k) → (odict_set d k v).*1 = d.*1.
Proof.
  induction d as [|[k0 v0] d IH]; simpl; [by intros [? ?]|].
  case_decide; csimpl; [done|]. intros Hk. by rewrite IH.
Qed.

Lemma odict_get_elem_of (d : odict) (k : Z) (v : Event) :
  odict_get d k = Some v → (k, v) ∈ d.
Proof.
  induction d as [|[k0 v0] d IH]; simpl; [done|].
  case_decide; subst.
  - intros [= ->]. left.
  - intros Hk. right. auto.
Qed.

Lemma odict_elem_of_get (d : odict) (k : Z) (v : Event) :
  NoDup d.*1 → (k, v) ∈ d → odict_get d k = Some v.
Proof.
  induction d as [|[k0 v0] d IH]; simpl.
  - intros _ H. by apply elem_of_nil in H.
  - rewrite NoDup_cons. intros [Hk0 Hnd] [[= -> ->]|H]%elem_of_cons.
    + by rewrite decide_True.
    + rewrite decide_False; [auto|]. intros ->.
      apply Hk0. apply list_elem_of_fmap. by exists (k, v).
Qed.

(** ** Order of first appearance *)

Lemma elem_of_first_appearance (l : list Z) (x : Z) :
  x ∈ first_appearance l ↔ x ∈ l.
Proof.
  induction l as [|y l IH]; simpl; [done|].
  rewrite !elem_of_cons, list_elem_of_filter, IH.
  destruct (decide (x = y)); tauto.
Qed.

Lemma first_appearance_snoc (l : list Z) (x : Z) :
  first_appearance (l ++ [x]) =
  if decide (x ∈ l) then first_appearance l else first_appearance l ++ [x].
Proof.
  induction l as [|y l IH]; [done|].
  rewrite <- app_comm_cons. cbn [first_appearance].
  - rewrite IH. destruct (decide (x = y)) as [->|Hxy].
    + rewrite (decide_True (P := y ∈ y :: l)) by left.
      case_decide; [done|].
      rewrite filter_app, filter_cons_False by (intros Hy; by apply Hy).
      by rewrite filter_nil, app_nil_r.
    + destruct (decide (x ∈ l)) as [Hin|Hin].
      * rewrite (decide_True (P := x ∈ y :: l)) by (by right). done.
      * rewrite (decide_False (P := x ∈ y :: l))
          by (rewrite elem_of_cons; by intros [|]).
        by rewrite filter_app, filter_cons_True.
Qed.

(** ** earliest_event_by_user *)

Lemma dedup_inv_nil : dedup_inv [] [].
Proof. split; [done|]. intros k v H. done. Qed.

Lemma first_least_snoc_other (p : list Event) (r ev : Event) :
  user ev ≠ user r → first_least p r → first_least (p ++ [ev]) r.
Proof.
  intros Hne (i & Hi & Hle & Hlt). exists i. split_and!.
  - by apply lookup_app_l_Some.
  - intros e [He|He%list_elem_of_singleton]%elem_of_app Hu; [auto|].
    subst. congruence.
  - intros j e Hj Hje Hu. apply (Hlt j e); [done| |done].
    apply lookup_lt_Some in Hi.
    rewrite lookup_app_l in Hje by lia. done.
Qed.

(** The event just read is the one kept when it is strictly earlier than
    every event of its user read before. *)
Lemma first_least_snoc_new (p : list Event) (ev : Event) :
  (∀ e, e ∈ p → user e = user ev → ¬ time_lt e ev ∧ ¬ time_le e ev) →
  first_least (p ++ [ev]) ev.
Proof.
  intros Hall. exists (length p). split_and!.
  - by rewrite lookup_app_r, Nat.sub_diag by lia.
  - intros e [He|He%list_elem_of_singleton]%elem_of_app Hu.
    + by apply Hall.
    + subst. unfold time_lt. by rewrite ltb_irrefl.
  - intros j e Hj Hje Hu. rewrite lookup_app_l in Hje by lia.
    apply Hall; [|done]. eapply list_elem_of_lookup_2; eauto.
Qed.

Lemma dedup_step_inv (p : list Event) (d : odict) (ev : Event) :
  dedup_inv p d → dedup_inv (p ++ [ev]) (dedup_step d ev).
Proof.
  intros [Hkeys Hval]. unfold dedup_step.
  destruct (odict_get d (user ev)) as [old|] eqn:Hget.
  - destruct (Hval _ _ Hget) as [Hu Hold].
    assert (Hin : user ev ∈ user <$> p).
    { apply elem_of_first_appearance. rewrite <- Hkeys.
      apply list_elem_of_fmap. exists (user ev, old). split; [done|].
      by apply odict_get_elem_of. }
    destruct (time ev <? time old)%float eqn:Hlt.
    + split.
      * rewrite odict_set_keys_present by eauto.
        rewrite fmap_snoc, first_appearance_snoc.
        by rewrite decide_True.
      * intros k v. rewrite odict_get_set. case_decide; subst.
        -- intros [= <-]. split; [done|]. apply first_least_snoc_new.
           intros e He Hue. destruct Hold as (i & Hi & Hmin & _).
           split; intros Hcmp; apply (Hmin e He); try congruence.
           ++ by eapply ltb_trans.
           ++ by eapply leb_ltb_trans.
        -- intros Hk. destruct (Hval _ _ Hk) as [Huv Hv]. split; [done|].
           apply first_least_snoc_other; congruence.
    + split.
      * rewrite fmap_snoc, first_appearance_snoc.
        by rewrite decide_True.
      * intros k v Hk. destruct (Hval _ _ Hk) as [Huv Hv].
        split; [done|].
        destruct (decide (user ev = user v)) as [Heq|Hne];
          [|by apply first_least_snoc_other].
        assert (v = old) as -> by congruence.
        destruct Hv as (i & Hi & Hmin & Hfirst). exists i. split_and!.
        -- by apply lookup_app_l_Some.
        -- intros e [He|He%list_elem_of_singleton]%elem_of_app Hue;
             [auto|]. subst e. unfold time_lt. by rewrite Hlt.
        -- intros j e Hj Hje Hue. apply (Hfirst j e); [done| |done].
           apply lookup_lt_Some in Hi.
           rewrite lookup_app_l in Hje by lia. done.
  - assert (Hnin : user ev ∉ user <$> p).
    { rewrite <- elem_of_first_appearance, <- Hkeys.
      by apply odict_get_None. }
    split.
    + rewrite odict_set_absent by done.
      rewrite fmap_snoc, fmap_snoc, first_appearance_snoc.
      rewrite decide_False by done. by rewrite Hkeys.
    + intros k v. rewrite odict_get_set. case_decide; subst.
      * intros [= <-]. split; [done|]. apply first_least_snoc_new.
        intros e He Hue. exfalso. apply Hnin.
        apply list_elem_of_fmap. eauto.
      * intros Hk. destruct (Hval _ _ Hk) as [Huv Hv]. split; [done|].
        apply first_least_snoc_other; congruence.
Qed.

Lemma dedup_inv_foldl (evs : list Event) :
  dedup_inv evs (foldl dedup_step [] evs).
Proof.
  induction evs as [|ev p IH] using rev_ind.
  - apply dedup_inv_nil.
  - rewrite foldl_snoc. by apply dedup_step_inv.
Qed.

Lemma odict_set_Forall (P : Z * Event → Prop) (d : odict) (k : Z) (v : Event) :
  Forall P d → P (k, v) → Forall P (odict_set d k v).
Proof.
  intros Hd Hkv. induction Hd as [|[k0 v0] d H0 Hd IH]; simpl.
  - by constructor.
  - case_decide; subst; constructor; auto.
Qed.

Lemma dedup_step_keyed (d : odict) (ev : Event) :
  keyed d → keyed (dedup_step d ev).
Proof.
  intros [Hnd Hall]. unfold dedup_step.
  destruct (odict_get d (user ev)) as [old|] eqn:Hget.
  - destruct (time ev <? time old)%float; [|done]. split.
    + rewrite odict_set_keys_present by eauto. done.
    + by apply odict_set_Forall.
  - split.
    + rewrite odict_set_absent, fmap_snoc by done.
      apply NoDup_app. split_and!; [done| |apply NoDup_singleton].
      intros x Hx ->%list_elem_of_singleton. by apply odict_get_None in Hget.
    + by apply odict_set_Forall.
Qed.

Lemma foldl_dedup_keyed (evs : list Event) (d : odict) :
  keyed d → keyed (foldl dedup_step d evs).
Proof.
  revert d. induction evs as [|ev evs IH]; intros d Hd; simpl; [done|].
  apply IH. by apply dedup_step_keyed.
Qed.

Lemma keyed_users (d : odict) : keyed d → user <$> odict_values d = d.*1.
Proof.
  intros [_ Hall]. unfold odict_values.
  induction Hall as [|[k v] d Hkv Hall IH]; csimpl; [done|].
  simpl in Hkv. by rewrite Hkv, IH.
Qed.

(** Events of distinct users that the table does not know yet are
    appended to it one by one. *)
Lemma foldl_dedup_fresh (l : list Event) (d : odict) :
  NoDup (user <$> l) → (∀ e, e ∈ l → user e ∉ d.*1) →
  foldl dedup_step d l = d ++ ((λ e, (user e, e)) <$> l).
Proof.
  revert d. induction l as [|e l IH]; intros d Hnd Hfresh; csimpl.
  - by rewrite app_nil_r.
  - rewrite fmap_cons in Hnd. apply NoDup_cons in Hnd as [He Hnd].
    assert (Hget : odict_get d (user e) = None).
    { apply odict_get_None. apply Hfresh. left. }
    unfold dedup_step at 2. rewrite Hget, odict_set_absent by done.
    rewrite IH; [by rewrite <- app_assoc|done|].
    intros e' He'. rewrite fmap_snoc, elem_of_app, list_elem_of_singleton.
    intros [Hin|Heq].
    + by apply (Hfresh e'); [right|].
    + apply He. simpl in Heq. rewrite <- Heq. apply list_elem_of_fmap. eauto.
Qed.

(** C8. earliest_event_by_user is idempotent: applied to its own output
    it returns that output, the same events in the same order. *)
Theorem earliest_event_by_user_idempotent (evs : list Event) :
  earliest_event_by_user (earliest_event_by_user evs)
  = earliest_event_by_user evs.
Proof.
  assert (Hk : keyed (foldl dedup_step [] evs)).
  { apply foldl_dedup_keyed. split; constructor. }
  set (out := earliest_event_by_user evs).
  assert (Hnd : NoDup (user <$> out)).
  { unfold out, earliest_event_by_user. rewrite keyed_users by done.
    apply Hk. }
  unfold earliest_event_by_user at 1.
  rewrite foldl_dedup_fresh; [|done|intros e _; apply not_elem_of_nil].
  unfold odict_values. rewrite app_nil_l, <- list_fmap_compose.
  apply list_fmap_id.
Qed.

(** C10. earliest_event_by_user is deterministic, ties included.  The
    users of its output are the users of the input in order of first
    appearance, each once, and the event kept for a user is the first
    event, in input order, among that user's events of least time: no
    event of the user is strictly earlier, and no event of the user that
    precedes it in the input is as early (an event of equal time never
    replaces the one kept). *)
Theorem earliest_event_by_user_first_seen (evs : list Event) :
  user <$> earliest_event_by_user evs = first_appearance (user <$> evs)
  ∧ NoDup (user <$> earliest_event_by_user evs)
  ∧ (∀ e, e ∈ evs →
       ∃ r, r ∈ earliest_event_by_user evs ∧ user r = user e)
  ∧ (∀ r, r ∈ earliest_event_by_user evs → first_least evs r).
Proof.
  destruct (dedup_inv_foldl evs) as [Hkeys Hval].
  assert (Hk : keyed (foldl dedup_step [] evs)).
  { apply foldl_dedup_keyed. split; constructor. }
  assert (Husers : user <$> earliest_event_by_user evs
                   = first_appearance (user <$> evs)).
  { unfold earliest_event_by_user. by rewrite keyed_users. }
  split_and!; [done| | |].
  - unfold earliest_event_by_user. rewrite keyed_users by done. apply Hk.
  - intros e He.
    assert (Hin : user e ∈ user <$> earliest_event_by_user evs).
    { rewrite Husers. apply elem_of_first_appearance.
      apply list_elem_of_fmap. eauto. }
    apply list_elem_of_fmap in Hin as (r & Hr & Hin). eauto.
  - intros r Hr. unfold earliest_event_by_user, odict_values in Hr.
    apply list_elem_of_fmap in Hr as ([k v] & -> & Hin). simpl.
    apply (Hval k v). apply odict_elem_of_get; [apply Hk | done].
Qed.

(** On times that are not NaN the two negations read as inequalities:
    the event kept is no later than any event of its user, and strictly
    earlier than each one before it. *)
Lemma first_least_ordered (evs : list Event) (r : Event) :
  (∀ e, e ∈ evs → ordered_time e) → first_least evs r →
  ∃ i : nat, evs !! i = Some r
    ∧ (∀ e, e ∈ evs → user e = user r → time_le r e)
    ∧ (∀ (j : nat) e, (j < i)%nat → evs !! j = Some e → user e = user r →
         time_lt r e).
Proof.
  intros Hord (i & Hi & Hmin & Hfirst). exists i.
  assert (Hr : ordered_time r).
  { apply Hord. by eapply list_elem_of_lookup_2. }
  split_and!; [done| |].
  - intros e He Hu. apply ltb_false_leb; [by apply Hord|done|].
    apply not_true_is_false. by apply Hmin.
  - intros j e Hj Hje Hu.
    apply leb_false_ltb; [|done|].
    + apply Hord. by eapply list_elem_of_lookup_2.
    + apply not_true_is_false. by apply (Hfirst j e).
Qed.

Example earliest_event_by_user_sample :
  earliest_event_by_user sample_events
  = [mkEvent 1 3 2%float; mkEvent 2 0 1%float].
Proof. reflexivity. Qed.

(** ** sort_events *)

Lemma insert_by_time_perm (e : Event) (l : list Event) :
  insert_by_time e l ≡ₚ e :: l.
Proof.
  induction l as [|y l IH]; simpl; [done|].
  destruct (time e <? time y)%float; [done|].
  rewrite IH. apply Permutation_swap.
Qed.

Lemma foldl_insert_perm (l acc : list Event) :
  foldl (λ acc e, insert_by_time e acc) acc l ≡ₚ acc ++ l.
Proof.
  revert acc. induction l as [|e l IH]; intros acc; simpl.
  - by rewrite app_nil_r.
  - rewrite IH, insert_by_time_perm. simpl. apply Permutation_middle.
Qed.

Lemma sort_by_time_perm (l : list Event) : sort_by_time l ≡ₚ l.
Proof. apply foldl_insert_perm. Qed.

Lemma sort_by_time_length (l : list Event) :
  length (sort_by_time l) = length l.
Proof. by rewrite sort_by_time_perm. Qed.

Lemma insert_by_time_sorted (e : Event) (l : list Event) :
  ordered_time e → Forall ordered_time l →
  StronglySorted time_le l → StronglySorted time_le (insert_by_time e l).
Proof.
  intros He Hl Hs. induction Hs as [|y l Hs IH Hy]; simpl.
  - by repeat constructor.
  - apply Forall_cons in Hl as [Hoy Hl].
    destruct (time e <? time y)%float eqn:Hlt.
    + constructor; [by constructor|]. constructor.
      * by apply ltb_true_leb.
      * eapply Forall_impl; [exact Hy|]. intros z Hz. unfold time_le in *.
        apply ltb_true_leb. by eapply ltb_leb_trans.
    + constructor; [auto|].
      rewrite insert_by_time_perm. constructor; [|done].
      by apply ltb_false_leb.
Qed.

Lemma foldl_insert_sorted (l acc : list Event) :
  Forall ordered_time l → Forall ordered_time acc →
  StronglySorted time_le acc →
  StronglySorted time_le (foldl (λ acc e, insert_by_time e acc) acc l).
Proof.
  revert acc. induction l as [|e l IH]; intros acc Hl Hacc Hs; simpl.
  - done.
  - apply Forall_cons in Hl as [He Hl]. apply IH; [done| |].
    + rewrite insert_by_time_perm. by constructor.
    + by apply insert_by_time_sorted.
Qed.

Lemma sort_by_time_sorted (l : list Event) :
  Forall ordered_time l → StronglySorted time_le (sort_by_time l).
Proof.
  intros Hl. apply foldl_insert_sorted; [done|constructor|constructor].
Qed.

(** An event that is no earlier than the events already placed goes
    last: the sort is stable and leaves a sorted list as it is. *)
Lemma insert_by_time_last (e : Event) (l : list Event) :
  Forall (λ y, time_le y e) l → insert_by_time e l = l ++ [e].
Proof.
  induction 1 as [|y l Hy Hl IH]; simpl; [done|].
  rewrite (leb_ltb_false _ _ Hy). by rewrite IH.
Qed.

Lemma foldl_insert_sorted_id (l acc : list Event) :
  StronglySorted time_le (acc ++ l) →
  foldl (λ acc e, insert_by_time e acc) acc l = acc ++ l.
Proof.
  revert acc. induction l as [|e l IH]; intros acc Hs; simpl.
  - by rewrite app_nil_r.
  - rewrite insert_by_time_last.
    + rewrite IH; rewrite <- app_assoc; done.
    + apply Forall_forall. intros y Hy.
      eapply StronglySorted_app_1_elem_of; [exact Hs|done|left].
Qed.

Lemma sort_by_time_sorted_id (l : list Event) :
  StronglySorted time_le l → sort_by_time l = l.
Proof. intros Hs. by apply (foldl_insert_sorted_id l []). Qed.

(** ** Slices *)

Lemma slice_to_nonneg {A : Type} (l : list A) (k : Z) :
  0 ≤ k → slice_to l k = take (Z.to_nat k) l.
Proof. intros Hk. unfold slice_to. by rewrite decide_False by lia. Qed.

(** ** get_k_prefix on the store *)

Section StoreRun.
Import Store.

Lemma run_bind {A B : Type} (m : M A) (f : A → M B) (h : heap) :
  (m ≫= f) h = match m h with Some (a, h') => f a h' | None => None end.
Proof. reflexivity. Qed.

Ltac run_store Ho Hl :=
  repeat first
    [ rewrite run_bind
    | rewrite Ho
    | rewrite Hl
    | rewrite list_lookup_insert_eq by (rewrite ?length_insert; lia)
    | rewrite lookup_app_l
        by (rewrite ?length_app, ?length_insert; simpl; lia)
    | rewrite lookup_app_r
        by (rewrite ?length_app, ?length_insert; simpl; lia)
    | rewrite Nat.sub_diag
    | progress simpl ].

Lemma get_k_prefix_run (h : heap) (self : ref) (o : object)
    (evs : list Event) (k : Z) :
  objects h !! self = Some o → lists h !! obj_events o = Some evs →
  get_k_prefix self k h =
  if decide (len evs < k) then Some (None, sorted_heap h (obj_events o) evs)
  else Some (Some (length (objects h)), prefix_heap h o evs k).
Proof.
  intros Ho Hl.
  assert (Hlt : (obj_events o < length (lists h))%nat)
    by (by eapply lookup_lt_Some).
  assert (Hlt' : (self < length (objects h))%nat)
    by (by eapply lookup_lt_Some).
  unfold get_k_prefix, sort_events, new_Cascade, slice_copy.
  unfold get_object, read_list, write_list, new_list, new_object, set_events.
  run_store Ho Hl.
  unfold mret at 1, M_ret at 1, len.
  rewrite (sort_by_time_length evs).
  destruct (decide (Z.of_nat (length evs) < k)) as [Hk|Hk]; [done|].
  run_store Ho Hl.
  unfold mret, M_ret, prefix_heap. do 3 f_equal.
  - by rewrite <- !app_assoc.
  - rewrite insert_app_r_alt, Nat.sub_diag by done. simpl.
    do 3 f_equal. rewrite !length_app, !length_insert. simpl. lia.
Qed.

End StoreRun.

Section StoreProps.
Import Store.

Lemma take_sort_k_earliest (evs : list Event) (k : Z) :
  Forall ordered_time evs → 0 ≤ k → k ≤ len evs →
  k_earliest evs (slice_to (sort_by_time evs) k) k.
Proof.
  intros Hord Hk Hlen.
  pose proof (sort_by_time_sorted evs Hord) as Hs.
  rewrite slice_to_nonneg by done.
  rewrite <- (take_drop (Z.to_nat k) (sort_by_time evs)) in Hs.
  split_and!.
  - unfold len in *. rewrite length_take, sort_by_time_length. lia.
  - by eapply StronglySorted_app_1_l.
  - exists (drop (Z.to_nat k) (sort_by_time evs)). split.
    + rewrite take_drop. apply sort_by_time_perm.
    + intros a b Ha Hb. by eapply StronglySorted_app_1_elem_of.
Qed.

(** C5, as stated, fails for a negative [k]: the cascade has at least
    [k] events, and the slice [events[:k]] drops the last [-k] events
    instead of keeping [k]. *)
Lemma get_k_prefix_negative_k :
  ∃ c p h' pc,
    snapshot sample_heap 0 = Some c
    ∧ -1 ≤ len (events c)
    ∧ get_k_prefix 0 (-1) sample_heap = Some (Some p, h')
    ∧ snapshot h' p = Some pc
    ∧ len (events pc) = 2.
Proof. by eexists _, _, _, _. Qed.

(** C5, amended. For [k >= 0] and times that are not NaN,
    get_k_prefix(k) on a cascade with at least [k] events returns a new
    Cascade with the same cid, root and publish_time whose events are the
    [k] earliest of the source in ascending order of time; on a cascade
    with fewer than [k] events it returns None, and that is a return like
    the other, not an exception. *)
Theorem get_k_prefix_spec (h : heap) (self : nat) (c : Cascade) (k : Z) :
  snapshot h self = Some c →
  Forall ordered_time (events c) →
  0 ≤ k →
  ∃ r h', get_k_prefix self k h = Some (r, h')
    ∧ (len (events c) < k → r = None)
    ∧ (k ≤ len (events c) →
         ∃ p pc, r = Some p
           ∧ objects h !! p = None
           ∧ snapshot h' p = Some pc
           ∧ cid pc = cid c ∧ root pc = root c
           ∧ publish_time pc = publish_time c
           ∧ k_earliest (events c) (events pc) k).
Proof.
  unfold snapshot. intros Hsnap Hord Hk.
  destruct (objects h !! self) as [o|] eqn:Ho; [|done]. simpl in Hsnap.
  destruct (lists h !! obj_events o) as [evs|] eqn:Hl; [|done].
  injection Hsnap as <-. simpl in *.
  rewrite (get_k_prefix_run h self o evs k Ho Hl).
  destruct (decide (len evs < k)) as [Hlt|Hge].
  - eexists _, _. split_and!; [done|done|lia].
  - eexists _, _. split_and!; [done|lia|]. intros _.
    exists (length (objects h)),
      (mkCascade (obj_cid o) (obj_root o) (obj_publish_time o)
         (slice_to (sort_by_time evs) k)).
    split_and!; [done| | |done..|].
    + by apply lookup_ge_None.
    + unfold prefix_heap. simpl.
      rewrite lookup_app_r, Nat.sub_diag by done. simpl.
      rewrite lookup_app_r by (rewrite length_insert; lia).
      rewrite length_insert.
      replace (length (lists h) + 2 - length (lists h))%nat with 2%nat by lia.
      done.
    + simpl. apply take_sort_k_earliest; [done|done|lia].
Qed.

Lemma get_k_prefix_spec_witness :
  ∃ r h', get_k_prefix 0 2 sample_heap = Some (r, h')
    ∧ ∃ p pc, r = Some p ∧ snapshot h' p = Some pc
        ∧ events pc = [mkEvent 2 0 1%float; mkEvent 3 2 2%float].
Proof.
  destruct (get_k_prefix_spec sample_heap 0
              (mkCascade 7 0 100%float
                 [mkEvent 1 0 5%float; mkEvent 2 0 1%float;
                  mkEvent 3 2 2%float]) 2)
    as (r & h' & Hrun & _ & Hpre).
  - reflexivity.
  - repeat constructor.
  - lia.
  - exists r, h'. split; [exact Hrun|].
    destruct Hpre as (p & pc & -> & _ & Hsnap & _); [unfold len; simpl; lia|].
    exists p, pc. split_and!; [done|done|].
    vm_compute in Hrun. injection Hrun as <- <-.
    vm_compute in Hsnap. by injection Hsnap as <-.
Defined.

(** C2, as stated, fails: a cascade whose events are not in ascending
    order of time has them reordered by the call. *)
Lemma get_k_prefix_reorders_source :
  ∃ c r h' c',
    snapshot sample_heap 0 = Some c
    ∧ get_k_prefix 0 2 sample_heap = Some (r, h')
    ∧ snapshot h' 0 = Some c'
    ∧ events c
      = [mkEvent 1 0 5%float; mkEvent 2 0 1%float; mkEvent 3 2 2%float]
    ∧ events c'
      = [mkEvent 2 0 1%float; mkEvent 3 2 2%float; mkEvent 1 0 5%float].
Proof. by eexists _, _, _, _. Qed.

(** C2, amended. get_k_prefix(k) leaves the source object as it is: its
    cid, root and publish_time, and the list its events attribute points
    to.  That list holds the same events afterwards, possibly in another
    order: in ascending order of time when no time is NaN, and unchanged
    when it was in that order already.  No other object or list of the
    store changes, and the prefix is a new object whose events are a new
    list. *)
Theorem get_k_prefix_frame (h : heap) (self : nat) (o : object)
    (evs : list Event) (k : Z) :
  objects h !! self = Some o → lists h !! obj_events o = Some evs →
  ∃ r h' evs', get_k_prefix self k h = Some (r, h')
    ∧ objects h' !! self = Some o
    ∧ lists h' !! obj_events o = Some evs'
    ∧ evs' ≡ₚ evs
    ∧ (Forall ordered_time evs → StronglySorted time_le evs')
    ∧ (StronglySorted time_le evs → evs' = evs)
    ∧ (∀ q oq, objects h !! q = Some oq → objects h' !! q = Some oq)
    ∧ (∀ l v, l ≠ obj_events o → lists h !! l = Some v →
         lists h' !! l = Some v)
    ∧ (∀ p, r = Some p →
         objects h !! p = None
         ∧ ∃ op, objects h' !! p = Some op
             ∧ lists h !! obj_events op = None).
Proof.
  intros Ho Hl.
  assert (Hlt : (obj_events o < length (lists h))%nat)
    by (by eapply lookup_lt_Some).
  rewrite (get_k_prefix_run h self o evs k Ho Hl).
  destruct (decide (len evs < k)) as [Hk|Hk]; eexists _, _, (sort_by_time evs);
    (split; [reflexivity|]); unfold sorted_heap, prefix_heap; simpl.
  - split_and!; [done| |apply sort_by_time_perm|apply sort_by_time_sorted
                 |apply sort_by_time_sorted_id|done| |done].
    + by rewrite list_lookup_insert_eq.
    + intros l v Hne Hv. by rewrite list_lookup_insert_ne.
  - assert (Hin : ∀ l : nat, (l < length (lists h))%nat →
              (<[obj_events o:=sort_by_time evs]> (lists h)
                 ++ [[]; slice_to (sort_by_time evs) k;
                     slice_to (sort_by_time evs) k]) !! l
              = <[obj_events o:=sort_by_time evs]> (lists h) !! l).
    { intros l Hl'. by rewrite lookup_app_l by (by rewrite length_insert). }
    split_and!.
    + by apply lookup_app_l_Some.
    + by rewrite Hin, list_lookup_insert_eq.
    + apply sort_by_time_perm.
    + apply sort_by_time_sorted.
    + apply sort_by_time_sorted_id.
    + intros q oq Hq. by apply lookup_app_l_Some.
    + intros l v Hne Hv. rewrite Hin by (by eapply lookup_lt_Some).
      by rewrite list_lookup_insert_ne.
    + intros p [= <-]. split; [by apply lookup_ge_None|].
      eexists. split.
      * rewrite lookup_app_r, Nat.sub_diag by done. done.
      * simpl. apply lookup_ge_None. lia.
Qed.

Lemma get_k_prefix_frame_witness :
  ∃ r h' evs', get_k_prefix 0 2 sample_heap = Some (r, h')
    ∧ lists h' !! 0%nat = Some evs'
    ∧ evs' ≡ₚ [mkEvent 1 0 5%float; mkEvent 2 0 1%float; mkEvent 3 2 2%float].
Proof.
  destruct (get_k_prefix_frame sample_heap 0 (mkObject 7 0 100%float 0)
              [mkEvent 1 0 5%float; mkEvent 2 0 1%float; mkEvent 3 2 2%float]
              2 eq_refl eq_refl)
    as (r & h' & evs' & Hrun & _ & Hlist & Hperm & _).
  exists r, h', evs'. split_and!; [exact Hrun | exact Hlist | exact Hperm].
Defined.

End StoreProps.

(** ** Loops *)

Lemma for_each_snoc {A S : Type} (body : S → A → result S) (l : list A)
    (x : A) (s : S) :
  for_each (l ++ [x]) body s = (s' ← for_each l body s; body s' x).
Proof.
  revert s. induction l as [|y l IH]; intros s; simpl.
  - by destruct (body s x).
  - destruct (body s y) as [s1| |]; simpl; [apply IH|done..].
Qed.

(** A loop whose body keeps an invariant of the elements seen so far,
    and never raises under it, runs to its end and establishes the
    invariant of the whole list. *)
Lemma for_each_total {A S : Type} (I : list A → S → Prop)
    (body : S → A → result S) (l : list A) (s : S) :
  I [] s →
  (∀ seen x s, I seen s → ∃ s', body s x = Ok s' ∧ I (seen ++ [x]) s') →
  ∃ s', for_each l body s = Ok s' ∧ I l s'.
Proof.
  intros H0 Hstep. induction l as [|x l IH] using rev_ind.
  - by exists s.
  - destruct IH as (s1 & Hrun & Hs1).
    destruct (Hstep l x s1 Hs1) as (s2 & Hbody & Hs2).
    exists s2. by rewrite for_each_snoc, Hrun.
Qed.

(** A loop over [l] whose body, on the elements of [l], keeps an
    invariant of the elements seen so far or raises: the loop establishes
    the invariant of the whole list or raises, and [E] holds when it
    raises. *)
Lemma for_each_inv {A S : Type} (I : list A → S → Prop) (E : Prop)
    (body : S → A → result S) (l : list A) (s : S) :
  I [] s →
  (∀ seen x s, x ∈ l → I seen s →
     match body s x with
     | Ok s' => I (seen ++ [x]) s'
     | Raise _ => E
     | OutOfFuel => False
     end) →
  match for_each l body s with
  | Ok s' => I l s'
  | Raise _ => E
  | OutOfFuel => False
  end.
Proof.
  intros H0 Hstep.
  assert (Hpre : ∀ l1 l2, l = l1 ++ l2 →
            match for_each l1 body s with
            | Ok s' => I l1 s'
            | Raise _ => E
            | OutOfFuel => False
            end).
  { induction l1 as [|x l1 IH] using rev_ind; intros l2 Hl; [done|].
    rewrite for_each_snoc.
    specialize (IH (x :: l2)). rewrite <- app_assoc in Hl.
    specialize (IH Hl).
    destruct (for_each l1 body s) as [s1| |]; simpl; [|done..].
    apply Hstep; [|done]. rewrite Hl, elem_of_app. right. left. }
  apply (Hpre l []). by rewrite app_nil_r.
Qed.

(** ** build_tree *)

Lemma setdefault_lookup (adj : gmap Z (gset Z)) (k x : Z) :
  setdefault adj k !! x =
  if decide (x = k) then Some (default ∅ (adj !! k)) else adj !! x.
Proof.
  unfold setdefault. destruct (adj !! k) as [s|] eqn:Hk.
  - case_decide; by subst.
  - case_decide; subst; [by rewrite lookup_insert_eq|].
    by rewrite lookup_insert_ne.
Qed.

Lemma build_tree_step_ok (adj : gmap Z (gset Z)) (e : Event) :
  ∃ adj', build_tree_step adj e = Ok adj'
    ∧ (∀ x, is_Some (adj' !! x)
         ↔ is_Some (adj !! x) ∨ x = parent e ∨ x = user e)
    ∧ (∀ a b, edge adj' a b
         ↔ edge adj a b ∨ (a = parent e ∧ b = user e)).
Proof.
  unfold build_tree_step, getitem.
  set (adj2 := setdefault (setdefault adj (parent e)) (user e)).
  assert (Hl : ∀ x, adj2 !! x =
            if decide (x = user e ∨ x = parent e)
            then Some (default ∅ (adj !! x)) else adj !! x).
  { intros x. unfold adj2. rewrite !setdefault_lookup.
    repeat case_decide; subst; simpl; try tauto; try congruence.
    all: by destruct (adj !! user e). }
  rewrite (Hl (parent e)), decide_True by tauto. simpl.
  eexists. split; [done|]. split.
  - intros x. destruct (decide (x = parent e)) as [->|Hne].
    + rewrite lookup_insert_eq. split; [tauto|eauto].
    + rewrite lookup_insert_ne, Hl by done. case_decide.
      * split; [tauto|eauto].
      * tauto.
  - intros a b. unfold edge. destruct (decide (a = parent e)) as [->|Hne].
    + rewrite lookup_insert_eq. split.
      * intros (s & [= <-] & [Hb|Hb]%elem_of_union).
        -- left. destruct (adj !! parent e) as [s|]; [eauto|].
           simpl in Hb. by apply not_elem_of_empty in Hb.
        -- right. by apply elem_of_singleton in Hb.
      * intros [(s & Hs & Hb)|[_ ->]]; eexists; (split; [done|]).
        -- rewrite Hs. simpl. apply elem_of_union. by left.
        -- apply elem_of_union. right. by apply elem_of_singleton.
    + rewrite lookup_insert_ne, Hl by done. case_decide.
      * split.
        -- intros (s & [= <-] & Hb). left.
           destruct (adj !! a) as [s|]; [eauto|].
           simpl in Hb. by apply not_elem_of_empty in Hb.
        -- intros [(s & Hs & Hb)|[? _]]; [|done].
           exists s. rewrite Hs. done.
      * split; [by left | intros [?|[? _]]; done].
Qed.

Lemma tree_of_init (r : Z) : tree_of r [] (setdefault ∅ r).
Proof.
  split.
  - intros x. rewrite setdefault_lookup. case_decide.
    + split; [by left | eauto].
    + rewrite lookup_empty. split; [by intros [? ?]|].
      intros [?|(e & He & _)]; [done|]. by apply elem_of_nil in He.
  - intros a b. unfold edge. split.
    + intros (s & Hs & Hb). rewrite setdefault_lookup in Hs.
      case_decide; [|by rewrite lookup_empty in Hs].
      rewrite lookup_empty in Hs. injection Hs as <-.
      by apply not_elem_of_empty in Hb.
    + intros (e & He & _). by apply elem_of_nil in He.
Qed.

Lemma tree_of_step (r : Z) (seen : list Event) (adj : gmap Z (gset Z))
    (e : Event) :
  tree_of r seen adj →
  ∃ adj', build_tree_step adj e = Ok adj' ∧ tree_of r (seen ++ [e]) adj'.
Proof.
  intros [Hkeys Hedges].
  destruct (build_tree_step_ok adj e) as (adj' & Hrun & Hk' & He').
  exists adj'. split; [done|]. split.
  - intros x. rewrite Hk', Hkeys. split.
    + intros [[?|(e0 & He0 & Hx)]|Hx]; [by left| |].
      * right. exists e0. split; [|done]. apply elem_of_app. by left.
      * right. exists e. split; [|done]. apply elem_of_app. right.
        by apply list_elem_of_singleton.
    + intros [?|(e0 & [He0|He0%list_elem_of_singleton]%elem_of_app & Hx)].
      * left. by left.
      * left. right. eauto.
      * subst. by right.
  - intros a b. rewrite He', Hedges. split.
    + intros [(e0 & He0 & Hx)|[-> ->]].
      * exists e0. split; [|done]. apply elem_of_app. by left.
      * exists e. split; [|done]. apply elem_of_app. right.
        by apply list_elem_of_singleton.
    + intros (e0 & [He0|He0%list_elem_of_singleton]%elem_of_app & Hp & Hu).
      * left. eauto.
      * subst. by right.
Qed.

Lemma build_tree_tree_of (c : Cascade) :
  ∃ adj, build_tree c = Ok adj ∧ tree_of (root c) (events c) adj.
Proof.
  unfold build_tree.
  apply (for_each_total (tree_of (root c))).
  - apply tree_of_init.
  - intros seen e adj. apply tree_of_step.
Qed.

(** Every child is a key in the mapping [build_tree] returns. *)
Lemma build_tree_closed (c : Cascade) (adj : gmap Z (gset Z)) :
  build_tree c = Ok adj → closed adj.
Proof.
  intros Hrun. destruct (build_tree_tree_of c) as (adj' & Hrun' & Hk & He).
  assert (adj' = adj) as -> by congruence.
  intros u v (e & Hin & _ & <-)%He. apply Hk. right. eauto.
Qed.

(** C6. build_tree returns a mapping that has the root as a key, with an
    empty child set when no event names the root as its parent; for every
    event, its parent and its user are keys and the user is in the child
    set of the parent; and there is no key and no child besides these. *)
Theorem build_tree_spec (c : Cascade) :
  ∃ adj, build_tree c = Ok adj
    ∧ is_Some (adj !! root c)
    ∧ ((∀ e, e ∈ events c → parent e ≠ root c) → adj !! root c = Some ∅)
    ∧ (∀ e, e ∈ events c →
         is_Some (adj !! parent e) ∧ is_Some (adj !! user e)
         ∧ edge adj (parent e) (user e))
    ∧ (∀ x, is_Some (adj !! x) →
         x = root c ∨ ∃ e, e ∈ events c ∧ (x = parent e ∨ x = user e))
    ∧ (∀ p u, edge adj p u →
         ∃ e, e ∈ events c ∧ parent e = p ∧ user e = u).
Proof.
  destruct (build_tree_tree_of c) as (adj & Hrun & Hk & He).
  exists adj. split; [done|].
  assert (Hroot : is_Some (adj !! root c)) by (apply Hk; by left).
  split_and!.
  - done.
  - intros Hnone. destruct Hroot as [s Hs]. rewrite Hs. f_equal.
    apply set_eq. intros u. split; [|by intros ?%not_elem_of_empty].
    intros Hu. destruct (He (root c) u) as [(e & Hin & Hp & _) _].
    { by exists s. }
    by destruct (Hnone e Hin).
  - intros e Hin. split_and!.
    + apply Hk. right. eauto.
    + apply Hk. right. eauto.
    + apply He. eauto.
  - intros x. apply Hk.
  - intros p u. apply He.
Qed.

(** ** compute_depths: the breadth-first traversal *)

Lemma dep_Some (depths : gmap Z Z) (x d : Z) :
  depths !! x = Some d → dep depths x = d.
Proof. unfold dep. by intros ->. Qed.

Lemma dep_lookup (depths : gmap Z Z) (x : Z) :
  dep depths x ≠ -1 → depths !! x = Some (dep depths x).
Proof. unfold dep. by destruct (depths !! x). Qed.

Lemma dep_insert (depths : gmap Z Z) (c x d : Z) :
  dep (<[c := d]> depths) x = if decide (x = c) then d else dep depths x.
Proof.
  unfold dep. case_decide; subst.
  - by rewrite lookup_insert_eq.
  - by rewrite lookup_insert_ne.
Qed.

Lemma undiscovered_insert (depths : gmap Z Z) (c d : Z) :
  depths !! c = Some (-1) → d ≠ -1 →
  S (undiscovered (<[c := d]> depths)) = undiscovered depths.
Proof.
  intros Hc Hd. unfold undiscovered.
  rewrite map_filter_insert_False, map_filter_delete by done.
  assert (Hin : filter (λ kv : Z * Z, kv.2 = -1) depths !! c = Some (-1)).
  { by apply map_lookup_filter_Some. }
  rewrite map_size_delete_Some by eauto.
  destruct (size (filter (λ kv : Z * Z, kv.2 = -1) depths)) eqn:Hsz; [|done].
  apply map_size_empty_inv in Hsz. rewrite Hsz in Hin.
  by rewrite lookup_empty in Hin.
Qed.

Lemma by_depth_tail (depths : gmap Z Z) (cur : Z) (rest : list Z) :
  by_depth depths (cur :: rest) →
  by_depth depths rest ∧ ∀ q, q ∈ rest → dep depths cur ≤ dep depths q.
Proof.
  intros Hs. split.
  - intros i j x y Hij Hi Hj. apply (Hs (S i) (S j)); [lia|done..].
  - intros q [j Hj]%list_elem_of_lookup.
    apply (Hs 0%nat (S j)); [lia|done..].
Qed.

Lemma visit_child_step (adj : gmap Z (gset Z)) (r cur d : Z) (fuel : nat)
    (seen : list Z) (st : gmap Z Z * list Z) (c : Z) :
  edge adj cur c → visiting adj r cur d fuel seen st →
  match visit_child cur st c with
  | Ok st' => visiting adj r cur d fuel (seen ++ [c]) st'
  | Raise _ => ¬ reach_closed adj r
  | OutOfFuel => False
  end.
Proof.
  destruct st as [depths queue]. simpl.
  intros Hedge ((Hdom & Hroot & Hsound) & Hcur & Hd & Hproc & Hseen & Hq
                & Hbound & Hsorted & Hfuel). simpl in *.
  unfold getitem. destruct (depths !! c) as [dc|] eqn:Hc; simpl.
  2:{ intros Hclosed. destruct (Hclosed cur c) as [s Hs]; [|done|].
      - exists (Z.to_nat d). rewrite <- Hcur. apply Hsound. lia.
      - destruct (proj2 (Hdom c)) as [? ?]; [eauto|congruence]. }
  assert (Hlc : depths !! cur = Some d).
  { rewrite <- Hcur. apply dep_lookup. lia. }
  rewrite Hlc. simpl.
  assert (Hdc : dep depths c = dc) by (by apply dep_Some).
  pose proof (Hbound c) as Hle. rewrite Hdc in Hle.
  destruct (decide (dc = -1 ∨ dc > d + 1)) as [[Heq|Hgt]|Hno];
    [subst dc; rewrite Heq in Hc|lia|].
  - (* the child is discovered *)
    assert (Hother : ∀ x, dep depths x ≠ -1 →
              dep (<[c:=d + 1]> depths) x = dep depths x).
    { intros x Hx. rewrite dep_insert, decide_False; [done|].
      intros ->. by apply Hx. }
    unfold visiting. simpl. split_and!.
    + split_and!.
      * intros x. rewrite <- Hdom. destruct (decide (x = c)) as [->|Hne].
        -- rewrite lookup_insert_eq, Hc. split; eauto.
        -- by rewrite lookup_insert_ne.
      * rewrite lookup_insert_ne; [done|]. intros <-. congruence.
      * intros v. rewrite dep_insert. case_decide as Hv; [subst v|by auto].
        intros _. split; [lia|].
        replace (Z.to_nat (d + 1)) with (S (Z.to_nat d)) by lia.
        apply path_step with cur; [|done].
        rewrite <- Hcur. apply Hsound. lia.
    + rewrite Hother; [done|lia].
    + done.
    + intros u v Hu Hnq Hdu Huv.
      rewrite elem_of_app, list_elem_of_singleton in Hnq.
      rewrite dep_insert, decide_False in Hdu by tauto.
      rewrite (dep_insert _ _ u), (decide_False (P := u = c)) by tauto.
      destruct (Hproc u v) as [Hv1 Hv2]; [done|tauto|done|done|].
      by rewrite Hother.
    + intros v [Hv| ->%list_elem_of_singleton]%elem_of_app.
      * destruct (Hseen v Hv) as [Hv1 Hv2]. by rewrite Hother.
      * rewrite dep_insert, decide_True by done. lia.
    + intros q [Hq'| ->%list_elem_of_singleton]%elem_of_app.
      * pose proof (Hq q Hq'). rewrite Hother; lia.
      * rewrite dep_insert, decide_True by done. lia.
    + intros v. rewrite dep_insert. case_decide; [lia|apply Hbound].
    + intros i j x y Hij Hi Hj.
      assert (Hx : x ∈ queue).
      { apply lookup_lt_Some in Hj as Hlt. rewrite length_app in Hlt.
        simpl in Hlt. rewrite lookup_app_l in Hi by lia.
        by eapply list_elem_of_lookup_2. }
      pose proof (Hq x Hx). rewrite (Hother x) by lia.
      rewrite dep_insert. case_decide; [apply Hbound|].
      apply lookup_app_Some in Hj as [Hj|[_ Hj]].
      * apply lookup_app_Some in Hi as [Hi|[Hge _]].
        -- by apply (Hsorted i j).
        -- apply lookup_lt_Some in Hj. lia.
      * apply list_lookup_singleton_Some in Hj as [_ <-]. done.
    + rewrite length_app. simpl.
      pose proof (undiscovered_insert depths c (d + 1) Hc). lia.
  - (* the child has a depth already *)
    unfold visiting. simpl. split_and!; try done.
    intros v [Hv| ->%list_elem_of_singleton]%elem_of_app; [auto|].
    rewrite Hdc. split; lia.
Qed.

Lemma elem_of_children_of (adj : gmap Z (gset Z)) (cur c : Z) :
  c ∈ children_of adj cur ↔ edge adj cur c.
Proof.
  unfold children_of, edge. rewrite elem_of_elements.
  destruct (adj !! cur) as [s|]; simpl.
  - split; [eauto|]. by intros (? & [= <-] & ?).
  - split; [by intros ?%not_elem_of_empty|]. by intros (? & ? & ?).
Qed.

(** One round of the [while] loop. *)
Lemma bfs_round (adj : gmap Z (gset Z)) (r cur : Z) (fuel : nat)
    (depths : gmap Z Z) (rest : list Z) :
  at_head adj r (S fuel) depths (cur :: rest) →
  match for_each (children_of adj cur) (visit_child cur) (depths, rest) with
  | Ok st => at_head adj r fuel st.1 st.2
  | Raise _ => ¬ reach_closed adj r
  | OutOfFuel => False
  end.
Proof.
  intros (Hrec & Hproc & (b & Hb & Hqb & Hbound) & Hsorted & Hfuel).
  destruct (by_depth_tail _ _ _ Hsorted) as [Hsorted' Hhead].
  set (d := dep depths cur).
  assert (Hd : b ≤ d) by (apply Hqb; left).
  assert (Hinit : visiting adj r cur d fuel [] (depths, rest)).
  { unfold visiting. simpl. split_and!; try done; try lia.
    - intros u v Hu Hnr. apply Hproc. rewrite not_elem_of_cons. done.
    - intros v Hv. by apply elem_of_nil in Hv.
    - intros v. specialize (Hbound v). lia.
    - simpl in Hfuel. lia. }
  pose proof (for_each_inv (visiting adj r cur d fuel) (¬ reach_closed adj r)
                (visit_child cur) (children_of adj cur) (depths, rest) Hinit)
    as Hloop.
  destruct (for_each (children_of adj cur) (visit_child cur) (depths, rest))
    as [[depths' queue']| |]; simpl.
  2,3: apply Hloop; intros seen c st Hc; apply visit_child_step;
       by apply elem_of_children_of.
  destruct Hloop as (Hrec' & Hcur & Hd0 & Hproc' & Hseen & Hq & Hbound'
                      & Hsorted'' & Hfuel').
  { intros seen c st Hc. apply visit_child_step.
    by apply elem_of_children_of. }
  simpl in *. split_and!; try done.
  - intros u v Hu Hdu Huv. destruct (decide (u = cur)) as [->|Hne].
    + rewrite Hcur. apply Hseen. by apply elem_of_children_of.
    + by apply Hproc'.
  - by exists d.
Qed.

(** The loop ends within its fuel. *)
Lemma bfs_loop_inv (adj : gmap Z (gset Z)) (r : Z) (fuel : nat)
    (depths : gmap Z Z) (queue : list Z) :
  at_head adj r fuel depths queue →
  match bfs_loop adj fuel depths queue with
  | Ok depths' => finished adj r depths'
  | Raise _ => ¬ reach_closed adj r
  | OutOfFuel => False
  end.
Proof.
  assert (Hnil : ∀ f ds, at_head adj r f ds [] → finished adj r ds).
  { intros f ds (Hrec & Hproc & _). split; [done|].
    intros u v. apply Hproc, not_elem_of_nil. }
  revert depths queue. induction fuel as [|fuel IH]; intros depths queue Hinv.
  - destruct queue as [|cur rest]; simpl; [by eapply Hnil|].
    destruct Hinv as (_ & _ & _ & _ & Hfuel). simpl in Hfuel. lia.
  - destruct queue as [|cur rest]; simpl; [by eapply Hnil|].
    + pose proof (bfs_round adj r cur fuel depths rest Hinv) as Hround.
      destruct (for_each (children_of adj cur) (visit_child cur)
                  (depths, rest)) as [st| |]; simpl; [|done..].
      by apply IH.
Qed.

(** The state the loop starts from. *)
Lemma at_head_init (adj : gmap Z (gset Z)) (r : Z) :
  is_Some (adj !! r) →
  at_head adj r (size adj) (<[r := 0]> ((λ _, -1) <$> adj)) [r].
Proof.
  intros Hr.
  set (init := (λ _ : gset Z, -1) <$> adj).
  assert (Hdep : ∀ x, dep (<[r := 0]> init) x = if decide (x = r) then 0
                                                 else -1).
  { intros x. rewrite dep_insert. case_decide; [done|].
    unfold dep, init. rewrite lookup_fmap. by destruct (adj !! x). }
  split_and!.
  - split_and!.
    + intros x. destruct (decide (x = r)) as [->|Hne].
      * rewrite lookup_insert_eq. split; eauto.
      * rewrite lookup_insert_ne by done. unfold init.
        rewrite lookup_fmap. by rewrite fmap_is_Some.
    + by rewrite lookup_insert_eq.
    + intros v. rewrite Hdep. case_decide; [subst v|done].
      intros _. split; [done|]. apply path_root.
  - intros u v Hu. rewrite Hdep. case_decide; [subst u|done].
    destruct Hu. left.
  - exists 0. split_and!; [done| |].
    + intros q ->%list_elem_of_singleton. rewrite Hdep.
      by rewrite decide_True.
    + intros v. rewrite Hdep. case_decide; lia.
  - intros i j x y Hij Hi Hj. apply lookup_lt_Some in Hj. simpl in Hj. lia.
  - unfold undiscovered.
    rewrite map_filter_insert_False by done.
    assert (Hle : (size (filter (λ kv : Z * Z, kv.2 = (-1)%Z)
                           (delete r init))
                   ≤ size (delete r init))%nat).
    { apply map_subseteq_size, map_filter_subseteq. }
    rewrite map_size_delete_Some in Hle
      by (unfold init; rewrite lookup_fmap; by apply fmap_is_Some).
    unfold init in Hle at 2. rewrite map_size_fmap in Hle.
    destruct (size adj) eqn:Hsz.
    + apply map_size_empty_inv in Hsz. subst adj.
      rewrite lookup_empty in Hr. by destruct Hr.
    + simpl in *. lia.
Qed.

Lemma compute_depths_fuel_inv (adj : gmap Z (gset Z)) (r : Z) (fuel : nat) :
  is_Some (adj !! r) → (size adj ≤ fuel)%nat →
  match compute_depths_fuel fuel adj r with
  | Ok depths => finished adj r depths
  | Raise _ => ¬ reach_closed adj r
  | OutOfFuel => False
  end.
Proof.
  intros Hr Hfuel. unfold compute_depths_fuel.
  destruct Hr as [s Hs]. rewrite Hs.
  apply bfs_loop_inv.
  destruct (at_head_init adj r) as (H1 & H2 & H3 & H4 & H5); [eauto|].
  split_and!; try done. lia.
Qed.

(** The fuel of the model does not show: the loop never exhausts it, on
    any mapping and any root. *)
Lemma compute_depths_never_out_of_fuel (adj : gmap Z (gset Z)) (r : Z) :
  compute_depths adj r ≠ OutOfFuel.
Proof.
  unfold compute_depths. destruct (adj !! r) as [s|] eqn:Hr.
  - pose proof (compute_depths_fuel_inv adj r (size adj)) as H.
    intros Heq. rewrite Heq in H. apply H; eauto.
  - unfold compute_depths_fuel. by rewrite Hr.
Qed.

(** More fuel than the keys of [adj] changes nothing. *)
Lemma compute_depths_fuel_enough (adj : gmap Z (gset Z)) (r : Z)
    (fuel : nat) :
  closed adj → is_Some (adj !! r) → (size adj ≤ fuel)%nat →
  ∃ depths, compute_depths_fuel fuel adj r = Ok depths
    ∧ finished adj r depths.
Proof.
  intros Hclosed Hr Hfuel.
  pose proof (compute_depths_fuel_inv adj r fuel Hr Hfuel) as H.
  destruct (compute_depths_fuel fuel adj r) as [d| |]; [eauto| |done].
  destruct H. intros u v _. apply Hclosed.
Qed.

(** At the end, a node on a path of length [n] from the root has a depth,
    and it is at most [n]. *)
Lemma finished_complete (adj : gmap Z (gset Z)) (r : Z) (depths : gmap Z Z)
    (n : nat) (v : Z) :
  finished adj r depths → path adj r n v →
  dep depths v ≠ -1 ∧ dep depths v ≤ Z.of_nat n.
Proof.
  intros [(Hdom & Hroot & Hsound) Hproc]. induction 1 as [|n u v Hp IH Huv].
  - rewrite (dep_Some _ _ _ Hroot). done.
  - destruct IH as [Hu1 Hu2].
    destruct (Hproc u v Hu1 Huv) as [Hv1 Hv2]. split; [done|lia].
Qed.

Lemma finished_distance (adj : gmap Z (gset Z)) (r : Z) (depths : gmap Z Z)
    (v : Z) :
  finished adj r depths → dep depths v ≠ -1 →
  0 ≤ dep depths v ∧ distance adj r (Z.to_nat (dep depths v)) v.
Proof.
  intros Hfin Hv. pose proof Hfin as [(Hdom & Hroot & Hsound) Hproc].
  destruct (Hsound v Hv) as [H0 Hpath]. split; [done|]. split; [done|].
  intros m Hm.
  destruct (finished_complete adj r depths m v Hfin Hm) as [_ Hle]. lia.
Qed.

Lemma build_tree_sample : build_tree sample_cascade = Ok sample_tree.
Proof. vm_compute. reflexivity. Qed.

(** A mapping with a child that is not a key is no adjacency mapping,
    and [build_tree] returns none such; on one, [depths[child]] raises
    KeyError. *)
Lemma compute_depths_child_not_key :
  is_Some (({[0 := {[1]}]} : gmap Z (gset Z)) !! 0)
  ∧ compute_depths {[0 := {[1]}]} 0 = Raise KeyError.
Proof. split; [by eexists | reflexivity]. Qed.

(** C1. On an adjacency mapping, in which every node is a key and so
    every child is one (the mappings of the data model and of
    build_tree), with the root among its keys, compute_depths returns a
    mapping over the keys of [adj] that gives the root depth 0, every
    node that no path from the root reaches depth -1, and every other
    node the length of a shortest path from the root; a node of depth
    d >= 1 is a child of some node of depth d - 1. *)
Theorem compute_depths_spec (adj : gmap Z (gset Z)) (r : Z) :
  closed adj → is_Some (adj !! r) →
  ∃ depths, compute_depths adj r = Ok depths
    ∧ (∀ v, is_Some (depths !! v) ↔ is_Some (adj !! v))
    ∧ depths !! r = Some 0
    ∧ (∀ v, is_Some (adj !! v) → ¬ reachable_from adj r v →
         depths !! v = Some (-1))
    ∧ (∀ v, reachable_from adj r v →
         ∃ n, distance adj r n v ∧ depths !! v = Some (Z.of_nat n))
    ∧ (∀ v d, depths !! v = Some d → 1 ≤ d →
         ∃ u, depths !! u = Some (d - 1) ∧ edge adj u v).
Proof.
  intros Hclosed Hr.
  destruct (compute_depths_fuel_enough adj r (size adj) Hclosed Hr)
    as (depths & Hrun & Hfin); [done|].
  exists depths. split; [done|].
  pose proof Hfin as [(Hdom & Hroot & Hsound) Hproc].
  split_and!; [done|done| | |].
  - intros v [d Hv]%Hdom Hunreach. rewrite Hv. f_equal.
    destruct (decide (d = -1)) as [|Hne]; [done|].
    destruct Hunreach. exists (Z.to_nat d).
    rewrite <- (dep_Some _ _ _ Hv). apply Hsound.
    by rewrite (dep_Some _ _ _ Hv).
  - intros v [n Hn].
    destruct (finished_complete adj r depths n v Hfin Hn) as [Hv _].
    destruct (finished_distance adj r depths v Hfin Hv) as [H0 Hdist].
    exists (Z.to_nat (dep depths v)). split; [done|].
    rewrite Z2Nat.id by done. by apply dep_lookup.
  - intros v d Hv Hd. pose proof (dep_Some _ _ _ Hv) as Hdv.
    destruct (Hsound v) as [_ Hpath]; [lia|]. rewrite Hdv in Hpath.
    replace (Z.to_nat d) with (S (Z.to_nat (d - 1))) in Hpath by lia.
    inversion Hpath as [|n u v' Hpu Huv]; subst.
    destruct (finished_complete adj r depths _ u Hfin Hpu) as [Hu1 Hu2].
    destruct (Hproc u v Hu1 Huv) as [_ Hle].
    exists u. split; [|done].
    rewrite (dep_lookup _ _ Hu1). f_equal. lia.
Qed.

Lemma compute_depths_spec_witness :
  ∃ depths, compute_depths sample_tree 0 = Ok depths
    ∧ depths !! 0 = Some 0 ∧ depths !! 2 = Some 2 ∧ depths !! 5 = Some (-1).
Proof.
  destruct (compute_depths_spec sample_tree 0) as (depths & Hrun & _).
  - exact (build_tree_closed sample_cascade sample_tree build_tree_sample).
  - by eexists.
  - exists depths. split; [exact Hrun|].
    vm_compute in Hrun. injection Hrun as <-. by vm_compute.
Defined.

(** ** structural_metrics *)

Lemma filter_none {A : Type} (P : A → Prop) `{!∀ x, Decision (P x)}
    (l : list A) :
  (∀ x, x ∈ l → ¬ P x) → filter P l = [].
Proof.
  induction l as [|x l IH]; intros Hl; [done|].
  rewrite filter_cons_False by (apply Hl; left).
  apply IH. intros y Hy. apply Hl. by right.
Qed.

(** A root without children: the traversal stops after one round, with
    the root alone at a depth other than -1. *)
Lemma compute_depths_root_only (adj : gmap Z (gset Z)) (r : Z) :
  adj !! r = Some ∅ →
  compute_depths adj r = Ok (<[r := 0]> ((λ _, -1) <$> adj)).
Proof.
  intros Hr. unfold compute_depths, compute_depths_fuel. rewrite Hr.
  destruct (size adj) eqn:Hsz.
  - apply map_size_empty_inv in Hsz. subst adj. by rewrite lookup_empty in Hr.
  - simpl. unfold children_of. rewrite Hr. simpl.
    rewrite elements_empty. simpl. by destruct n.
Qed.

Lemma reachable_root_only (adj : gmap Z (gset Z)) (r : Z) :
  is_Some (adj !! r) →
  filter (λ nd : Z * Z, 0 ≤ nd.2)
    (map_to_list (<[r := 0]> ((λ _ : gset Z, -1) <$> adj)))
  = [(r, 0)].
Proof.
  intros Hr. set (init := (λ _ : gset Z, -1) <$> adj).
  apply Permutation_singleton_r.
  rewrite <- insert_delete_eq.
  rewrite map_to_list_insert by apply lookup_delete_eq.
  rewrite filter_cons_True by done.
  rewrite filter_none; [done|].
  intros [k d] Hkd. apply elem_of_map_to_list in Hkd.
  apply lookup_delete_Some in Hkd as [_ Hkd]. unfold init in Hkd.
  rewrite lookup_fmap in Hkd. destruct (adj !! k); simpl in Hkd; [|done].
  injection Hkd as <-. simpl. lia.
Qed.

(** C3. structural_metrics returns depth 0, avg_depth 0, leaves 1,
    branching_factor 0 and wiener_root_avg 0 when the root is not a key
    of the mapping, and also when the root is a key whose child set is
    empty: the root counts as the one leaf. *)
Theorem structural_metrics_degenerate (adj : gmap Z (gset Z)) (r : Z) :
  adj !! r = None ∨ adj !! r = Some ∅ →
  structural_metrics adj r
  = Ok (mkMetrics 0%float 0%float 1%float 0%float 0%float).
Proof.
  intros [Hr|Hr]; unfold structural_metrics; rewrite Hr; [done|].
  rewrite compute_depths_root_only by done. simpl.
  rewrite reachable_root_only by eauto. simpl.
  unfold getitem. rewrite lookup_insert_eq. simpl.
  assert (Hnc : n_children adj r = 0).
  { unfold n_children. by rewrite Hr. }
  rewrite filter_cons_True, filter_cons_False, !filter_nil by (simpl; lia).
  reflexivity.
Qed.

Lemma structural_metrics_degenerate_witness :
  structural_metrics sample_tree 3 = Ok (mkMetrics 0 0 1 0 0)%float
  ∧ structural_metrics sample_tree 9 = Ok (mkMetrics 0 0 1 0 0)%float.
Proof.
  split.
  - apply structural_metrics_degenerate. right. reflexivity.
  - apply structural_metrics_degenerate. left. reflexivity.
Defined.

Lemma map_result_total {A B : Type} (f : A → result B) (l : list A) :
  (∀ x, x ∈ l → ∃ y, f x = Ok y) →
  ∃ ys, map_result f l = Ok ys ∧ length ys = length l.
Proof.
  induction l as [|x l IH]; intros Hl; simpl; [by exists []|].
  destruct (Hl x) as [y Hy]; [left|]. rewrite Hy. simpl.
  destruct IH as (ys & Hys & Hlen); [intros z Hz; apply Hl; by right|].
  rewrite Hys. simpl. exists (y :: ys). by rewrite <- Hlen.
Qed.

(** C7. The mapping structural_metrics returns has wiener_root_avg equal
    to avg_depth, in the case of no tree as in the others; and it does
    return a mapping on every adjacency mapping (every child is a key). *)
Theorem structural_metrics_wiener (adj : gmap Z (gset Z)) (r : Z) :
  (∀ m, structural_metrics adj r = Ok m → wiener_root_avg m = avg_depth m)
  ∧ (closed adj → ∃ m, structural_metrics adj r = Ok m).
Proof.
  unfold structural_metrics. destruct (adj !! r) as [s|] eqn:Hr.
  2:{ split; [by intros m [= <-] | eauto]. }
  split.
  - intros m.
    destruct (compute_depths adj r) as [depths| |]; simpl; [|done..].
    destruct ((filter (λ nd : Z * Z, 0 ≤ nd.2) (map_to_list depths)).*1)
      as [|n0 reach]; [by intros [= <-]|].
    destruct (map_result (getitem depths) (n0 :: reach)) as [ds| |];
      simpl; [|done..].
    destruct (max_Z ds) as [mx| |]; simpl; [|done..].
    match goal with
    | |- context [mbind _ ?b] => destruct b as [br| |]; simpl; [|done..]
    end.
    by intros [= <-].
  - intros Hclosed.
    destruct (compute_depths_fuel_enough adj r (size adj) Hclosed)
      as (depths & Hrun & _); [eauto|done|].
    unfold compute_depths. rewrite Hrun. simpl.
    set (reachable :=
           (filter (λ nd : Z * Z, 0 ≤ nd.2) (map_to_list depths)).*1).
    assert (Hkey : ∀ n, n ∈ reachable → is_Some (depths !! n)).
    { intros n ([k d] & -> & Hkd)%list_elem_of_fmap.
      apply list_elem_of_filter in Hkd as [_ Hkd].
      apply elem_of_map_to_list in Hkd. simpl. eauto. }
    destruct reachable as [|n0 reach] eqn:Hreach; [eauto|].
    destruct (map_result_total (getitem depths) (n0 :: reach))
      as (ds & -> & Hlen).
    { intros n [d Hd]%Hkey. exists d. unfold getitem. by rewrite Hd. }
    simpl. destruct ds as [|d0 ds]; [done|]. simpl.
    set (non_leaves := filter (λ n, n_children adj n > 0) (n0 :: reach)).
    assert (Hnl : ∀ n, n ∈ non_leaves → is_Some (adj !! n)).
    { intros n [Hn _]%list_elem_of_filter. unfold n_children in Hn.
      destruct (adj !! n); [eauto|]. by vm_compute in Hn. }
    destruct (map_result_total
                (λ n, s ← getitem adj n; Ok (Z.of_nat (size s))) non_leaves)
      as (cs & -> & _).
    { intros n [c Hc]%Hnl. unfold getitem. rewrite Hc. simpl. eauto. }
    destruct non_leaves; simpl; eauto.
Qed.

(** ** temporal_features *)

#[local] Set Warnings "-inexact-float".

(** C4. For a prefix whose events have the times 1.0, 3.0, 4.0, 10.0, in
    this order, temporal_features returns time_to_k = 10.0,
    mean_inter_time = 3.0, var_inter_time = 14/3, half_life_ratio = 0.3
    and speed_change = 0.25, in binary64 arithmetic. *)
Theorem temporal_features_example (prefix : Cascade) :
  time <$> events prefix = [1; 3; 4; 10]%float →
  temporal_features prefix
  = Ok (mkTemporal 10 3 (14 / 3) 0.3 0.25)%float.
Proof.
  destruct prefix as [c r t evs]. simpl.
  destruct evs as [|[u1 p1 t1] [|[u2 p2 t2] [|[u3 p3 t3] [|[u4 p4 t4] [|]]]]];
    try done.
  intros [= -> -> -> ->]. vm_compute. reflexivity.
Qed.

Lemma temporal_features_example_witness :
  temporal_features c4_prefix
  = Ok (mkTemporal 10 3 4.666666666666667 0.3 0.25)%float.
Proof. exact (temporal_features_example c4_prefix eq_refl). Defined.

(** ** construct_labels *)

Lemma construct_labels_fmap (prefixes : list Cascade) (full_sizes : gmap Z Z)
    (k : Z) :
  construct_labels prefixes full_sizes k = label_of full_sizes k <$> prefixes.
Proof.
  unfold construct_labels.
  induction prefixes as [|pref prefixes IH] using rev_ind; [done|].
  by rewrite foldl_snoc, IH, fmap_snoc.
Qed.

(** C9, as stated, fails for a prefix length of 0: the threshold is 0,
    and a cid that full_sizes does not know, taken as final size 0, gets
    the label 1. *)
Lemma construct_labels_missing_cid_k0 :
  (∅ : gmap Z Z) !! cid (mkCascade 1 0 0%float []) = None
  ∧ construct_labels [mkCascade 1 0 0%float []] ∅ 0 = [1].
Proof. split; reflexivity. Qed.

(** C9, amended. construct_labels returns one label per prefix, in the
    order of the prefixes; the label is 1 when the final size of the
    prefix's cid, 0 for a cid that full_sizes does not know, is at least
    2*k, and 0 otherwise.  A cid that full_sizes does not know gets the
    label 0 when k >= 1.  With full_sizes = {1: 10, 2: 3} and k = 5, cid 1
    gets the label 1 and cid 2 the label 0. *)
Theorem construct_labels_spec (prefixes : list Cascade)
    (full_sizes : gmap Z Z) (k : Z) :
  construct_labels prefixes full_sizes k = label_of full_sizes k <$> prefixes
  ∧ (∀ pref n, full_sizes !! cid pref = Some n →
       label_of full_sizes k pref = if decide (2 * k ≤ n) then 1 else 0)
  ∧ (∀ pref, full_sizes !! cid pref = None → 1 ≤ k →
       label_of full_sizes k pref = 0)
  ∧ construct_labels
      [mkCascade 1 0 0%float []; mkCascade 2 0 0%float []]
      (<[1 := 10]> (<[2 := 3]> ∅)) 5 = [1; 0].
Proof.
  split_and!.
  - apply construct_labels_fmap.
  - intros pref n Hn. unfold label_of. rewrite Hn. simpl.
    repeat case_decide; lia.
  - intros pref Hnone Hk. unfold label_of. rewrite Hnone. simpl.
    case_decide; lia.
  - reflexivity.
Qed.

(** * Part III: the rest of the pipeline *)

(** ** sort_events: stability *)

Section TimeClasses.
Import FloatOrder.

Lemma SFeqb_ltb_false x z t :
  SFeqb x t = true → SFeqb z t = true → SFltb x z = false.
Proof. unfold SFeqb, SFltb. sf_cases; cmp_cases. Qed.

(** Two times equal to a third are not one before the other. *)
Lemma eqb_ltb_false (x z t : float) :
  (x =? t)%float = true → (z =? t)%float = true → (x <? z)%float = false.
Proof.
  rewrite !FloatAxioms.eqb_spec, FloatAxioms.ltb_spec. apply SFeqb_ltb_false.
Qed.

End TimeClasses.




Section CascadeMethods.
Import Store.

Lemma snapshot_Some (h : heap) (r : nat) (c : Cascade) :
  snapshot h r = Some c ↔
  ∃ o, objects h !! r = Some o
    ∧ lists h !! obj_events o = Some (events c)
    ∧ cid c = obj_cid o ∧ root c = obj_root o
    ∧ publish_time c = obj_publish_time o.
Proof.
  unfold snapshot. split.
  - destruct (objects h !! r) as [o|]; simpl; [|done].
    destruct (lists h !! obj_events o) as [evs|] eqn:Hl; simpl; [|done].
    intros [= <-]. by exists o.
  - intros (o & -> & Hl & H1 & H2 & H3). simpl. rewrite Hl. simpl.
    destruct c. simpl in *. by subst.
Qed.

Lemma sort_events_run (h : heap) (self : nat) (o : object)
    (evs : list Event) :
  objects h !! self = Some o → lists h !! obj_events o = Some evs →
  sort_events self h = Some (tt, sorted_heap h (obj_events o) evs).
Proof.
  intros Ho Hl. unfold sort_events, get_object, read_list, write_list.
  rewrite !run_bind, Ho. simpl. rewrite !run_bind, Hl. simpl.
  by rewrite Hl.
Qed.



(** X2. sort_events is idempotent on times that are not NaN: a second
    call leaves the store as the first call left it.  On a list that is
    in ascending order already the first call changes nothing either. *)
Theorem sort_events_idempotent (h : heap) (self : nat) (c : Cascade) :
  snapshot h self = Some c → Forall ordered_time (events c) →
  ∃ h', sort_events self h = Some (tt, h')
    ∧ sort_events self h' = Some (tt, h')
    ∧ (StronglySorted time_le (events c) → h' = h).
Proof.
  intros (o & Ho & Hl & _)%snapshot_Some Hord.
  assert (Hlt : (obj_events o < length (lists h))%nat)
    by (by eapply lookup_lt_Some).
  exists (sorted_heap h (obj_events o) (events c)). split_and!.
  - by apply sort_events_run.
  - rewrite (sort_events_run _ self o (sort_by_time (events c))).
    + unfold sorted_heap. simpl. rewrite list_insert_insert_eq.
      rewrite (sort_by_time_sorted_id (sort_by_time _)); [done|].
      by apply sort_by_time_sorted.
    + done.
    + simpl. by apply list_lookup_insert_eq.
  - intros Hs. unfold sorted_heap. rewrite sort_by_time_sorted_id by done.
    rewrite list_insert_id by done. by destruct h.
Qed.

Lemma sort_events_idempotent_witness :
  ∃ h', sort_events 0 sample_heap = Some (tt, h')
    ∧ sort_events 0 h' = Some (tt, h').
Proof.
  destruct (sort_events_idempotent sample_heap 0
              (mkCascade 7 0 100%float
                 [mkEvent 1 0 5%float; mkEvent 2 0 1%float;
                  mkEvent 3 2 2%float]))
    as (h' & Hrun & Hagain & _).
  - reflexivity.
  - repeat constructor.
  - exists h'. split; [exact Hrun | exact Hagain].
Defined.

(** X3. add_event appends the new event to the list of the cascade, with
    no check for a duplicate user: the events are the old ones followed
    by the new one, n_events is one more, and no object and no other
    list of the store changes. *)
Theorem add_event_appends (h : heap) (self : nat) (c : Cascade) (u p : Z)
    (t : float) :
  snapshot h self = Some c →
  ∃ h' l, add_event self u p t h = Some (tt, h')
    ∧ snapshot h' self
      = Some (mkCascade (cid c) (root c) (publish_time c)
                (events c ++ [mkEvent u p t]))
    ∧ n_events self h' = Some (len (events c) + 1, h')
    ∧ objects h' = objects h
    ∧ lists h' = <[l := events c ++ [mkEvent u p t]]> (lists h).
Proof.
  intros (o & Ho & Hl & H1 & H2 & H3)%snapshot_Some.
  assert (Hlt : (obj_events o < length (lists h))%nat)
    by (by eapply lookup_lt_Some).
  exists (mkHeap (<[obj_events o := events c ++ [mkEvent u p t]]> (lists h))
            (objects h)), (obj_events o).
  split_and!; try done.
  - unfold add_event, get_object, read_list, write_list.
    rewrite !run_bind, Ho. simpl. rewrite !run_bind, Hl. simpl.
    by rewrite Hl.
  - apply snapshot_Some. exists o. simpl. split_and!; try done.
    by apply list_lookup_insert_eq.
  - unfold n_events, get_object, read_list.
    rewrite !run_bind. simpl. rewrite Ho. simpl. rewrite !run_bind. simpl.
    rewrite list_lookup_insert_eq by done. simpl.
    unfold mret, M_ret, len. rewrite length_app. simpl.
    do 3 f_equal. lia.
Qed.

Lemma add_event_appends_witness :
  ∃ h', add_event 0 1 3 7%float sample_heap = Some (tt, h')
    ∧ n_events 0 h' = Some (4, h').
Proof.
  destruct (add_event_appends sample_heap 0
              (mkCascade 7 0 100%float
                 [mkEvent 1 0 5%float; mkEvent 2 0 1%float;
                  mkEvent 3 2 2%float]) 1 3 7%float eq_refl)
    as (h' & l & Hrun & _ & Hn & _).
  exists h'. split; [exact Hrun | exact Hn].
Defined.

End CascadeMethods.

(** ** unique_users *)

Lemma elem_of_user_set (c : Cascade) (x : Z) :
  x ∈ user_set c ↔ x = root c ∨ ∃ e, e ∈ events c ∧ user e = x.
Proof.
  unfold user_set. induction (events c) as [|e evs IH] using rev_ind; simpl.
  - rewrite elem_of_singleton. split; [by left|].
    intros [?|(e & He & _)]; [done|]. by apply elem_of_nil in He.
  - rewrite foldl_snoc, elem_of_union, elem_of_singleton, IH. split.
    + intros [[?|(e' & He' & Hu)]| ->]; [by left| |].
      * right. exists e'. split; [|done]. apply elem_of_app. by left.
      * right. exists e. split; [|done]. apply elem_of_app. right.
        by apply list_elem_of_singleton.
    + intros [?|(e' & [He'|He']%elem_of_app & Hu)].
      * left. by left.
      * left. right. eauto.
      * apply list_elem_of_singleton in He'. subst. by right.
Qed.

(** An ascending list without a repetition is strictly ascending. *)
Lemma StronglySorted_le_lt (l : list Z) :
  StronglySorted Z.le l → NoDup l → StronglySorted Z.lt l.
Proof.
  induction 1 as [|x l Hs IH Hx]; intros Hnd; [constructor|].
  apply NoDup_cons in Hnd as [Hnin Hnd]. constructor; [auto|].
  apply Forall_forall. intros y Hy.
  assert (x ≤ y) by (by eapply Forall_forall in Hx).
  assert (x ≠ y) by (by intros ->). lia.
Qed.

(** X4. unique_users returns the root and the users of the events, each
    once, in strictly ascending order; the parents of the events are not
    among them unless they are users too. *)
Theorem unique_users_spec (c : Cascade) :
  StronglySorted Z.lt (unique_users c)
  ∧ ∀ x, x ∈ unique_users c ↔ x = root c ∨ ∃ e, e ∈ events c ∧ user e = x.
Proof.
  unfold unique_users. split.
  - apply StronglySorted_le_lt.
    + apply StronglySorted_merge_sort; apply _.
    + rewrite merge_sort_Permutation. apply NoDup_elements.
  - intros x. rewrite merge_sort_Permutation, elem_of_elements.
    apply elem_of_user_set.
Qed.

(** ** earliest_event_by_user: what it removes *)

Lemma first_appearance_length (l : list Z) :
  (length (first_appearance l) ≤ length l)%nat
  ∧ (¬ NoDup l → (length (first_appearance l) < length l)%nat).
Proof.
  induction l as [|x l [IHle IHlt]]; simpl.
  - split; [done|]. intros []. constructor.
  - pose proof (length_filter (λ y, y ≠ x) (first_appearance l)) as Hf.
    split; [lia|]. intros Hnd.
    destruct (decide (x ∈ l)) as [Hin|Hnin].
    + pose proof (length_filter_lt (λ y, y ≠ x) (first_appearance l) x) as Hlt.
      enough (length (filter (λ y, y ≠ x) (first_appearance l))
              < length (first_appearance l))%nat by lia.
      apply Hlt; [by apply elem_of_first_appearance | by intros []].
    + destruct (decide (NoDup l)) as [Hl|Hl].
      * destruct Hnd. by constructor.
      * specialize (IHlt Hl). lia.
Qed.

(** X5. earliest_event_by_user removes something exactly when a user has
    more than one event: a list in which every user has one event is
    returned as it is, the same events in the same order, and on any
    other list the result is strictly shorter. *)
Theorem earliest_event_by_user_distinct (evs : list Event) :
  (NoDup (user <$> evs) → earliest_event_by_user evs = evs)
  ∧ (¬ NoDup (user <$> evs) →
       (length (earliest_event_by_user evs) < length evs)%nat).
Proof.
  split.
  - intros Hnd. unfold earliest_event_by_user.
    rewrite foldl_dedup_fresh; [|done|intros e _; apply not_elem_of_nil].
    unfold odict_values. rewrite app_nil_l, <- list_fmap_compose.
    apply list_fmap_id.
  - intros Hnd.
    assert (Hk : keyed (foldl dedup_step [] evs)).
    { apply foldl_dedup_keyed. split; constructor. }
    destruct (dedup_inv_foldl evs) as [Hkeys _].
    pose proof (keyed_users _ Hk) as Hu. rewrite Hkeys in Hu.
    apply (f_equal length) in Hu. rewrite length_fmap in Hu.
    fold (earliest_event_by_user evs) in Hu. rewrite Hu.
    destruct (first_appearance_length (user <$> evs)) as [_ Hlt].
    specialize (Hlt Hnd). by rewrite length_fmap in Hlt.
Qed.

(** ** generate_prefix_cascades *)

Section Prefixes.
Import Store.

Lemma grown_refl (h : heap) : grown h h.
Proof. split; [done|]. intros l v Hl. by exists v. Qed.

Lemma grown_objects_length (h0 h : heap) :
  grown h0 h → (length (objects h0) ≤ length (objects h))%nat.
Proof.
  intros [Hobj _]. destruct (decide (length (objects h0)
                                      ≤ length (objects h))%nat); [done|].
  destruct (lookup_lt_is_Some_2 (objects h0) (length (objects h)))
    as [o Ho]; [lia|].
  apply Hobj, lookup_lt_Some in Ho. lia.
Qed.

Lemma grown_lists_length (h0 h : heap) :
  grown h0 h → (length (lists h0) ≤ length (lists h))%nat.
Proof.
  intros [_ Hl]. destruct (decide (length (lists h0)
                                    ≤ length (lists h))%nat); [done|].
  destruct (lookup_lt_is_Some_2 (lists h0) (length (lists h)))
    as [v Hv]; [lia|].
  apply Hl in Hv as (v' & Hv' & _). apply lookup_lt_Some in Hv'. lia.
Qed.

Lemma k_earliest_perm (evs evs' pre : list Event) (k : Z) :
  evs' ≡ₚ evs → k_earliest evs' pre k → k_earliest evs pre k.
Proof.
  intros Hp (Hlen & Hs & rest & Hrest & Hle).
  split_and!; [done|done|]. exists rest. split; [by rewrite Hrest|done].
Qed.

(** One call of [get_k_prefix] in a store grown from [h0], on an object
    of [h0]. *)
Lemma get_k_prefix_grown (h0 h : heap) (c : nat) (sc : Cascade) (k : Z) :
  grown h0 h → snapshot h0 c = Some sc → Forall ordered_time (events sc) →
  0 ≤ k →
  ∃ r h', get_k_prefix c k h = Some (r, h')
    ∧ grown h0 h'
    ∧ (∀ q oq, objects h !! q = Some oq → objects h' !! q = Some oq)
    ∧ (∀ l v, lists h0 !! l = None → lists h !! l = Some v →
         lists h' !! l = Some v)
    ∧ (len (events sc) < k → r = None)
    ∧ (k ≤ len (events sc) →
         ∃ p, r = Some p ∧ objects h !! p = None ∧ prefix_of h0 h' k c p).
Proof.
  intros Hg (o & Ho & Hl & H1 & H2 & H3)%snapshot_Some Hord Hk.
  pose proof (grown_objects_length _ _ Hg) as Hlo.
  pose proof (grown_lists_length _ _ Hg) as Hll.
  destruct Hg as [Hobj Hlists].
  destruct (Hlists _ _ Hl) as (evs & Hevs & Hperm).
  assert (Hlt0 : (obj_events o < length (lists h0))%nat)
    by (by eapply lookup_lt_Some).
  assert (Hlen : len evs = len (events sc)).
  { unfold len. by rewrite Hperm. }
  rewrite (get_k_prefix_run h c o evs k (Hobj _ _ Ho) Hevs). rewrite Hlen.
  assert (Hsorted : ∀ l v, lists h0 !! l = Some v →
            ∃ v', <[obj_events o := sort_by_time evs]> (lists h) !! l
                  = Some v' ∧ v' ≡ₚ v).
  { intros l v Hv. destruct (decide (l = obj_events o)) as [->|Hne].
    - exists (sort_by_time evs). split.
      + apply list_lookup_insert_eq. lia.
      + rewrite sort_by_time_perm, Hperm.
        by assert (events sc = v) as -> by congruence.
    - rewrite list_lookup_insert_ne by done. by apply Hlists. }
  assert (Hfresh : ∀ l v, lists h0 !! l = None → lists h !! l = Some v →
            <[obj_events o := sort_by_time evs]> (lists h) !! l = Some v).
  { intros l v Hnone Hv. rewrite list_lookup_insert_ne; [done|].
    intros <-. apply lookup_ge_None in Hnone. lia. }
  destruct (decide (len (events sc) < k)) as [Hshort|Hlong].
  - eexists _, _. split; [done|]. unfold sorted_heap. simpl.
    split_and!; [by split|done|done|done|lia].
  - eexists _, _. split; [done|]. unfold prefix_heap. simpl.
    split_and!.
    + split; simpl.
      * intros q oq Hq. apply lookup_app_l_Some. by apply Hobj.
      * intros l v Hv. destruct (Hsorted l v Hv) as (v' & Hv' & Hp).
        exists v'. split; [|done]. by apply lookup_app_l_Some.
    + intros q oq Hq. by apply lookup_app_l_Some.
    + intros l v Hnone Hv. apply lookup_app_l_Some. by apply Hfresh.
    + lia.
    + intros _. exists (length (objects h)).
      split_and!; [done|by apply lookup_ge_None|].
      exists sc, (mkObject (obj_cid o) (obj_root o) (obj_publish_time o)
                    (length (lists h) + 2)),
        (slice_to (sort_by_time evs) k).
      simpl. split_and!; try done.
      * apply snapshot_Some. by exists o.
      * apply lookup_ge_None. lia.
      * by rewrite lookup_app_r, Nat.sub_diag.
      * apply lookup_ge_None. lia.
      * rewrite lookup_app_r by (rewrite length_insert; lia).
        rewrite length_insert.
        by replace (length (lists h) + 2 - length (lists h))%nat
          with 2%nat by lia.
      * apply (k_earliest_perm _ evs); [done|].
        apply take_sort_k_earliest; [by rewrite Hperm|done|lia].
Qed.

(** A prefix made in one store is the same prefix in the stores that
    follow. *)
Lemma prefix_of_later (h0 h h' : heap) (k : Z) (c p : nat) :
  (∀ q oq, objects h !! q = Some oq → objects h' !! q = Some oq) →
  (∀ l v, lists h0 !! l = None → lists h !! l = Some v →
     lists h' !! l = Some v) →
  prefix_of h0 h k c p → prefix_of h0 h' k c p.
Proof.
  intros Hobj Hl (sc & op & pre & Hsc & Hp0 & Hp & Hl0 & Hpre & Hrest).
  exists sc, op, pre. split_and!; try apply Hrest; try done.
  - by apply Hobj.
  - by apply Hl.
Qed.

Lemma n_events_in_snapshot (h : heap) (c : nat) (sc : Cascade) :
  snapshot h c = Some sc → n_events_in h c = len (events sc).
Proof. unfold n_events_in. by intros ->. Qed.

Lemma prefix_loop_spec (h0 : heap) (k : Z) (cascades : list nat) :
  0 ≤ k →
  (∀ c, c ∈ cascades →
     ∃ sc, snapshot h0 c = Some sc ∧ Forall ordered_time (events sc)) →
  ∀ h prefixes, grown h0 h →
  ∃ ps h', prefix_loop cascades k prefixes h = Some (prefixes ++ ps, h')
    ∧ grown h0 h'
    ∧ (∀ q oq, objects h !! q = Some oq → objects h' !! q = Some oq)
    ∧ (∀ l v, lists h0 !! l = None → lists h !! l = Some v →
         lists h' !! l = Some v)
    ∧ Forall2 (prefix_of h0 h' k)
        (filter (λ c, k ≤ n_events_in h0 c) cascades) ps
    ∧ Forall (λ p, objects h !! p = None) ps
    ∧ NoDup ps.
Proof.
  intros Hk. induction cascades as [|c cs IH]; intros Hvalid h prefixes Hg.
  - exists [], h. rewrite app_nil_r.
    split_and!; try done; by constructor.
  - destruct (Hvalid c) as (sc & Hsc & Hord); [left|].
    destruct (get_k_prefix_grown h0 h c sc k Hg Hsc Hord Hk)
      as (r & h1 & Hrun & Hg1 & Hobj1 & Hl1 & Hnone & Hsome).
    cbn [prefix_loop]. rewrite run_bind, Hrun.
    assert (Hvalid' : ∀ c', c' ∈ cs →
              ∃ sc', snapshot h0 c' = Some sc'
                     ∧ Forall ordered_time (events sc')).
    { intros c' Hc'. apply Hvalid. by right. }
    destruct (decide (k ≤ len (events sc))) as [Hlong|Hshort].
    + destruct (Hsome Hlong) as (p & -> & Hp & Hpre).
      destruct (IH Hvalid' h1 (prefixes ++ [p]) Hg1)
        as (ps & h' & Hloop & Hg' & Hobj' & Hl' & Hall & Hnew & Hnd).
      exists (p :: ps), h'. rewrite Hloop, <- app_assoc.
      destruct Hpre as (sc0 & op & pre & Hpre).
      assert (Hp1 : objects h1 !! p = Some op) by apply Hpre.
      split_and!; try done.
      * intros q oq Hq. by apply Hobj', Hobj1.
      * intros l v Hl0 Hv. apply Hl'; [done|]. by apply Hl1.
      * rewrite filter_cons_True
          by (by rewrite (n_events_in_snapshot _ _ _ Hsc)).
        constructor; [|done].
        apply (prefix_of_later h0 h1); [done|done|].
        by exists sc0, op, pre.
      * constructor; [done|].
        eapply Forall_impl; [exact Hnew|]. intros q Hq. simpl in Hq.
        destruct (objects h !! q) as [oq|] eqn:Hoq; [|done].
        apply Hobj1 in Hoq. congruence.
      * constructor; [|done]. intros Hin.
        eapply Forall_forall in Hnew; [|exact Hin]. simpl in Hnew.
        congruence.
    + rewrite (Hnone ltac:(lia)).
      destruct (IH Hvalid' h1 prefixes Hg1)
        as (ps & h' & Hloop & Hg' & Hobj' & Hl' & Hall & Hnew & Hnd).
      exists ps, h'. rewrite Hloop.
      split_and!; try done.
      * intros q oq Hq. by apply Hobj', Hobj1.
      * intros l v Hl0 Hv. apply Hl'; [done|]. by apply Hl1.
      * rewrite filter_cons_False
          by (by rewrite (n_events_in_snapshot _ _ _ Hsc)).
        done.
      * eapply Forall_impl; [exact Hnew|]. intros q Hq. simpl in Hq.
        destruct (objects h !! q) as [oq|] eqn:Hoq; [|done].
        apply Hobj1 in Hoq. congruence.
Qed.

(** X6. generate_prefix_cascades, for [k >= 0] and times that are not
    NaN, returns one prefix for each cascade that has at least [k]
    events, in the order of the cascades, and none for the others: a new
    object for each, with the cid, root and publish_time of its cascade
    and its [k] earliest events in ascending order of time, in a list of
    its own.  The cascades themselves keep their events, in a possibly
    different order. *)
Theorem generate_prefix_cascades_spec (h : heap) (cascades : list nat)
    (k : Z) :
  0 ≤ k →
  (∀ c, c ∈ cascades →
     ∃ sc, snapshot h c = Some sc ∧ Forall ordered_time (events sc)) →
  ∃ ps h', generate_prefix_cascades cascades k h = Some (ps, h')
    ∧ Forall2 (prefix_of h h' k)
        (filter (λ c, k ≤ n_events_in h c) cascades) ps
    ∧ NoDup ps
    ∧ Forall (same_events h h') cascades.
Proof.
  intros Hk Hvalid.
  destruct (prefix_loop_spec h k cascades Hk Hvalid h [] (grown_refl h))
    as (ps & h' & Hloop & [Hobj Hl] & _ & _ & Hall & _ & Hnd).
  exists ps, h'. split_and!; try done.
  apply Forall_forall. intros c Hc.
  destruct (Hvalid c Hc) as (sc & (o & Ho & Hlo & _)%snapshot_Some & _).
  destruct (Hl _ _ Hlo) as (evs' & Hevs' & Hperm).
  exists o, (events sc), evs'. split_and!; try done. by apply Hobj.
Qed.

Lemma generate_prefix_cascades_spec_witness :
  ∃ ps h', generate_prefix_cascades [0%nat; 0%nat] 3 sample_heap
           = Some (ps, h')
    ∧ Forall2 (prefix_of sample_heap h' 3) [0%nat; 0%nat] ps.
Proof.
  destruct (generate_prefix_cascades_spec sample_heap [0%nat; 0%nat] 3)
    as (ps & h' & Hrun & Hall & _).
  - lia.
  - intros c Hc. exists (mkCascade 7 0 100%float
                 [mkEvent 1 0 5%float; mkEvent 2 0 1%float;
                  mkEvent 3 2 2%float]).
    split; [|repeat constructor].
    apply elem_of_cons in Hc as [->|Hc]; [reflexivity|].
    apply elem_of_cons in Hc as [->|Hc]; [reflexivity|].
    by apply elem_of_nil in Hc.
  - exists ps, h'. split; [exact Hrun | exact Hall].
Defined.

End Prefixes.

(** ** The labels of the prefixes (main) *)

Section Labels.
Import Store.

Lemma full_sizes_of_lookup (scs : list Cascade) (sc : Cascade) :
  NoDup (cid <$> scs) → sc ∈ scs →
  full_sizes_of scs !! cid sc = Some (len (events sc)).
Proof.
  unfold full_sizes_of.
  induction scs as [|c scs IH] using rev_ind; intros Hnd Hin.
  - by apply elem_of_nil in Hin.
  - rewrite foldl_snoc. rewrite fmap_snoc in Hnd.
    apply NoDup_app in Hnd as (Hnd & Hdisj & _).
    apply elem_of_app in Hin as [Hin| ->%list_elem_of_singleton].
    + rewrite lookup_insert_ne; [by apply IH|].
      intros Heq. apply (Hdisj (cid sc)).
      * apply list_elem_of_fmap. eauto.
      * rewrite Heq. by apply list_elem_of_singleton.
    + by rewrite lookup_insert_eq.
Qed.

Lemma filter_snapshots (h : heap) (k : Z) (cs : list nat)
    (scs : list Cascade) :
  Forall2 (λ c sc, snapshot h c = Some sc) cs scs →
  Forall2 (λ c sc, snapshot h c = Some sc)
    (filter (λ c, k ≤ n_events_in h c) cs)
    (filter (λ sc, k ≤ len (events sc)) scs).
Proof.
  induction 1 as [|c sc cs scs Hsc Hall IH]; [constructor|].
  pose proof (n_events_in_snapshot _ _ _ Hsc) as Hn.
  destruct (decide (k ≤ len (events sc))) as [Hk|Hk].
  - rewrite !filter_cons_True by (by rewrite ?Hn). by constructor.
  - rewrite !filter_cons_False by (by rewrite ?Hn). done.
Qed.

Lemma prefixes_snapshots (h h' : heap) (k : Z) (cs ps : list nat)
    (scs : list Cascade) :
  Forall2 (prefix_of h h' k) cs ps →
  Forall2 (λ c sc, snapshot h c = Some sc) cs scs →
  ∃ pcs, Forall2 (λ p pc, snapshot h' p = Some pc) ps pcs
    ∧ Forall2 (λ sc pc, cid pc = cid sc ∧ len (events pc) = k) scs pcs.
Proof.
  intros Hpre. revert scs.
  induction Hpre as [|c p cs ps Hp Hall IH]; intros scs Hsnap.
  - apply Forall2_nil_inv_l in Hsnap as ->. exists []. by split.
  - apply Forall2_cons_inv_l in Hsnap as (sc & scs' & Hsc & Hsnap & ->).
    destruct (IH scs' Hsnap) as (pcs & Hpcs & Hcids).
    destruct Hp as (sc0 & op & pre & Hsc0 & _ & Hop & _ & Hl & Hc & Hr & Ht
                    & Hlen & _).
    assert (sc0 = sc) as -> by congruence.
    exists (mkCascade (obj_cid op) (obj_root op) (obj_publish_time op) pre
              :: pcs).
    split; constructor; try done.
    apply snapshot_Some. by exists op.
Qed.

(** X7. The labels main computes for a prefix length [k >= 0], on
    cascades of distinct cids (times not NaN): with full_sizes built
    from the cascades, generate_prefix_cascades followed by
    construct_labels gives one label for each cascade that has at least
    [k] events, in the order of the cascades, and that label is 1 exactly
    when the cascade has at least [2 * k] events. *)
Theorem prefix_labels_doubling (h : heap) (cascades : list nat)
    (scs : list Cascade) (k : Z) :
  0 ≤ k →
  Forall2 (λ c sc, snapshot h c = Some sc) cascades scs →
  Forall (λ sc, Forall ordered_time (events sc)) scs →
  NoDup (cid <$> scs) →
  ∃ ps h' pcs, generate_prefix_cascades cascades k h = Some (ps, h')
    ∧ Forall2 (λ p pc, snapshot h' p = Some pc) ps pcs
    ∧ Forall (λ pc, len (events pc) = k) pcs
    ∧ construct_labels pcs (full_sizes_of scs) k
      = (λ sc, if decide (2 * k ≤ len (events sc)) then 1 else 0)
          <$> filter (λ sc, k ≤ len (events sc)) scs.
Proof.
  intros Hk Hsnap Hord Hnd.
  assert (Hvalid : ∀ c, c ∈ cascades →
            ∃ sc, snapshot h c = Some sc ∧ Forall ordered_time (events sc)).
  { intros c [i Hi]%list_elem_of_lookup.
    destruct (Forall2_lookup_l _ _ _ _ _ Hsnap Hi) as (sc & Hsc & Hc).
    exists sc. split; [done|].
    eapply Forall_forall in Hord; [exact Hord|].
    by eapply list_elem_of_lookup_2. }
  destruct (prefix_loop_spec h k cascades Hk Hvalid h [] (grown_refl h))
    as (ps & h' & Hrun & _ & _ & _ & Hpre & _).
  destruct (prefixes_snapshots _ _ _ _ _ _ Hpre
              (filter_snapshots _ k _ _ Hsnap))
    as (pcs & Hpcs & Hcids).
  exists ps, h', pcs. split_and!; [done|done| |].
  - apply Forall_forall. intros pc Hpc.
    apply list_elem_of_lookup in Hpc as [i Hi].
    destruct (Forall2_lookup_r _ _ _ _ _ Hcids Hi) as (sc & _ & _ & Hlen).
    done.
  - rewrite construct_labels_fmap.
    assert (Hsub : ∀ sc, sc ∈ filter (λ sc, k ≤ len (events sc)) scs →
              sc ∈ scs).
    { intros sc Hsc. by apply list_elem_of_filter in Hsc as [_ ?]. }
    clear Hpcs. revert Hsub.
    induction Hcids as [|sc pc scs' pcs' [Hc _] Hall IH]; intros Hsub;
      [done|].
    csimpl. rewrite IH by (intros sc' Hsc'; apply Hsub; by right).
    f_equal. unfold label_of. rewrite Hc.
    rewrite (full_sizes_of_lookup scs sc Hnd) by (apply Hsub; left).
    simpl. repeat case_decide; lia.
Qed.

Lemma prefix_labels_doubling_witness :
  ∃ ps h' pcs, generate_prefix_cascades [0%nat] 1 sample_heap = Some (ps, h')
    ∧ Forall2 (λ p pc, snapshot h' p = Some pc) ps pcs
    ∧ construct_labels pcs
        (full_sizes_of
           [mkCascade 7 0 100%float
              [mkEvent 1 0 5%float; mkEvent 2 0 1%float;
               mkEvent 3 2 2%float]]) 1
      = [1].
Proof.
  destruct (prefix_labels_doubling sample_heap [0%nat]
              [mkCascade 7 0 100%float
                 [mkEvent 1 0 5%float; mkEvent 2 0 1%float;
                  mkEvent 3 2 2%float]] 1)
    as (ps & h' & pcs & Hrun & Hpcs & _ & Hlabels).
  - lia.
  - by repeat constructor.
  - repeat constructor.
  - repeat constructor. apply not_elem_of_nil.
  - exists ps, h', pcs. split_and!; [exact Hrun | exact Hpcs | exact Hlabels].
Defined.

End Labels.

(** ** build_tree: the order of the events *)

Lemma tree_of_unique (r : Z) (evs evs' : list Event)
    (adj adj' : gmap Z (gset Z)) :
  (∀ p u, (∃ e, e ∈ evs ∧ parent e = p ∧ user e = u)
          ↔ (∃ e, e ∈ evs' ∧ parent e = p ∧ user e = u)) →
  tree_of r evs adj → tree_of r evs' adj' → adj = adj'.
Proof.
  intros Hsame [Hk He] [Hk' He'].
  assert (Hkeys : ∀ x, is_Some (adj !! x) ↔ is_Some (adj' !! x)).
  { intros x. rewrite Hk, Hk'. split.
    - intros [?|(e & Hin & Hx)]; [by left|]. right.
      destruct (proj1 (Hsame (parent e) (user e))) as (e' & Hin' & Hp & Hu);
        [eauto|].
      exists e'. split; [done|]. rewrite Hp, Hu. done.
    - intros [?|(e & Hin & Hx)]; [by left|]. right.
      destruct (proj2 (Hsame (parent e) (user e))) as (e' & Hin' & Hp & Hu);
        [eauto|].
      exists e'. split; [done|]. rewrite Hp, Hu. done. }
  apply map_eq. intros x.
  destruct (adj !! x) as [s|] eqn:Hs, (adj' !! x) as [s'|] eqn:Hs'.
  - f_equal. apply set_eq. intros u. split; intros Hu.
    + destruct (proj2 (He' x u)) as (s0 & Hs0 & Hu0).
      { apply Hsame, He. by exists s. }
      congruence.
    + destruct (proj2 (He x u)) as (s0 & Hs0 & Hu0).
      { apply Hsame, He'. by exists s'. }
      congruence.
  - destruct (proj1 (Hkeys x)) as [? ?]; [by rewrite Hs|congruence].
  - destruct (proj2 (Hkeys x)) as [? ?]; [by rewrite Hs'|congruence].
  - done.
Qed.

(** X8. build_tree depends on the root and on the set of (parent, user)
    pairs of the events only: two cascades of the same root whose events
    name the same pairs get the same mapping, in whatever order the
    events come, however often a pair is repeated and whatever the times
    are. *)
Theorem build_tree_order_independent (c c' : Cascade) :
  root c = root c' →
  (∀ p u, (∃ e, e ∈ events c ∧ parent e = p ∧ user e = u)
          ↔ (∃ e, e ∈ events c' ∧ parent e = p ∧ user e = u)) →
  build_tree c = build_tree c'.
Proof.
  intros Hroot Hsame.
  destruct (build_tree_tree_of c) as (adj & -> & Ht).
  destruct (build_tree_tree_of c') as (adj' & -> & Ht').
  f_equal. rewrite <- Hroot in Ht'. by eapply tree_of_unique.
Qed.

Lemma build_tree_order_independent_witness :
  build_tree sample_cascade
  = build_tree
      (mkCascade 8 0 0%float
         [mkEvent 5 4 9%float; mkEvent 3 0 3%float; mkEvent 2 1 0%float;
          mkEvent 1 0 1%float; mkEvent 3 0 7%float]).
Proof.
  apply build_tree_order_independent; [reflexivity|].
  intros p u. split; intros (e & He & <- & <-).
  - repeat (apply elem_of_cons in He as [->|He]);
      [..|by apply elem_of_nil in He];
      apply Exists_exists;
      repeat first [by apply Exists_cons_hd | apply Exists_cons_tl].
  - repeat (apply elem_of_cons in He as [->|He]);
      [..|by apply elem_of_nil in He];
      apply Exists_exists;
      repeat first [by apply Exists_cons_hd | apply Exists_cons_tl].
Defined.


(** ** compute_depths: when it raises, and how long it runs *)

Lemma for_each_raises {A S : Type} (body : S → A → result S) (l : list A)
    (s : S) (e : exn) :
  for_each l body s = Raise e → ∃ s' x, body s' x = Raise e.
Proof.
  revert s. induction l as [|x l IH]; intros s; simpl; [done|].
  destruct (body s x) as [s1|e1|] eqn:Hb; simpl; [by apply IH| |done].
  intros [= ->]. eauto.
Qed.

Lemma visit_child_raises (cur : Z) (st : gmap Z Z * list Z) (c : Z)
    (e : exn) :
  visit_child cur st c = Raise e → e = KeyError.
Proof.
  destruct st as [depths queue]. unfold visit_child, getitem.
  destruct (depths !! c); simpl; [|congruence].
  destruct (depths !! cur); simpl; [|congruence].
  by case_decide.
Qed.

Lemma bfs_loop_raises (adj : gmap Z (gset Z)) (fuel : nat)
    (depths : gmap Z Z) (queue : list Z) (e : exn) :
  bfs_loop adj fuel depths queue = Raise e → e = KeyError.
Proof.
  revert depths queue. induction fuel as [|fuel IH]; intros depths queue;
    destruct queue as [|cur rest]; simpl; try done.
  destruct (for_each (children_of adj cur) (visit_child cur) (depths, rest))
    as [st|e'|] eqn:Hloop; simpl; [apply IH| |done].
  intros [= ->]. apply for_each_raises in Hloop as (s' & x & Hx).
  by eapply visit_child_raises.
Qed.

(** A run that ends within its fuel is the run of any larger fuel. *)
Lemma bfs_loop_more_fuel (adj : gmap Z (gset Z)) (fuel fuel' : nat)
    (depths : gmap Z Z) (queue : list Z) :
  (fuel ≤ fuel')%nat → bfs_loop adj fuel depths queue ≠ OutOfFuel →
  bfs_loop adj fuel' depths queue = bfs_loop adj fuel depths queue.
Proof.
  revert fuel' depths queue.
  induction fuel as [|fuel IH]; intros fuel' depths queue Hle;
    destruct queue as [|cur rest]; simpl; try done.
  - by destruct fuel'.
  - by destruct fuel'.
  - destruct fuel' as [|fuel']; [lia|]. simpl.
    destruct (for_each (children_of adj cur) (visit_child cur)
                (depths, rest)) as [st| |]; simpl; [|done..].
    apply IH. lia.
Qed.

(** X9. compute_depths with the root among the keys: it raises KeyError
    exactly when some node reachable from the root has a child that is
    not a key, and returns otherwise; the mapping returned has the keys
    of [adj], -1 for the keys no path from the root reaches and the
    length of a shortest path for the others.  Children that are not
    keys do no harm where the traversal does not come. *)
Theorem compute_depths_raises_iff (adj : gmap Z (gset Z)) (r : Z) :
  is_Some (adj !! r) →
  (¬ reach_closed adj r ∧ compute_depths adj r = Raise KeyError)
  ∨ (reach_closed adj r
     ∧ ∃ depths, compute_depths adj r = Ok depths
         ∧ (∀ v, is_Some (depths !! v) ↔ is_Some (adj !! v))
         ∧ (∀ v, is_Some (adj !! v) → ¬ reachable_from adj r v →
              depths !! v = Some (-1))
         ∧ (∀ v, reachable_from adj r v →
              ∃ n, distance adj r n v ∧ depths !! v = Some (Z.of_nat n))).
Proof.
  intros Hr.
  pose proof (compute_depths_fuel_inv adj r (size adj) Hr (le_n _)) as Hinv.
  unfold compute_depths.
  destruct (compute_depths_fuel (size adj) adj r) as [depths|e|] eqn:Hrun;
    [right|left|done].
  - pose proof Hinv as [(Hdom & Hroot & Hsound) Hproc]. split.
    + intros u v [n Hu] Huv. apply Hdom.
      destruct (finished_complete adj r depths n u Hinv Hu) as [Hdu _].
      destruct (Hproc u v Hdu Huv) as [Hdv _].
      rewrite (dep_lookup _ _ Hdv). eauto.
    + exists depths. split_and!; [done|done| |].
      * intros v [d Hv]%Hdom Hunreach. rewrite Hv. f_equal.
        destruct (decide (d = -1)) as [|Hne]; [done|].
        destruct Hunreach. exists (Z.to_nat d).
        rewrite <- (dep_Some _ _ _ Hv). apply Hsound.
        by rewrite (dep_Some _ _ _ Hv).
      * intros v [n Hn].
        destruct (finished_complete adj r depths n v Hinv Hn) as [Hv _].
        destruct (finished_distance adj r depths v Hinv Hv) as [H0 Hdist].
        exists (Z.to_nat (dep depths v)). split; [done|].
        rewrite Z2Nat.id by done. by apply dep_lookup.
  - split; [done|]. f_equal.
    unfold compute_depths_fuel in Hrun. destruct (adj !! r); [|done].
    by eapply bfs_loop_raises.
Qed.

Lemma compute_depths_raises_iff_witness :
  reach_closed loose_tree 0
  ∧ ∃ depths, compute_depths loose_tree 0 = Ok depths
      ∧ depths !! 4 = Some (-1).
Proof.
  destruct (compute_depths_raises_iff loose_tree 0)
    as [[_ Hraise]|[Hclosed (depths & Hrun & _)]].
  - by eexists.
  - by vm_compute in Hraise.
  - split; [exact Hclosed|]. exists depths. split; [exact Hrun|].
    vm_compute in Hrun. injection Hrun as <-. by vm_compute.
Defined.

(** X10. The while loop of compute_depths ends on every mapping and
    every root, cycles included, after at most as many rounds as the
    mapping has keys: the fuel of the model is never exhausted, and any
    larger fuel gives the same result. *)
Theorem compute_depths_terminates (adj : gmap Z (gset Z)) (r : Z)
    (fuel : nat) :
  (size adj ≤ fuel)%nat →
  compute_depths adj r ≠ OutOfFuel
  ∧ compute_depths_fuel fuel adj r = compute_depths adj r.
Proof.
  intros Hfuel. pose proof (compute_depths_never_out_of_fuel adj r) as Hnever.
  split; [done|]. unfold compute_depths in *.
  unfold compute_depths_fuel in *. destruct (adj !! r); [|done].
  by apply bfs_loop_more_fuel.
Qed.

Lemma compute_depths_terminates_witness :
  compute_depths ({[0 := {[0]}]} : gmap Z (gset Z)) 0 ≠ OutOfFuel
  ∧ compute_depths_fuel 5 ({[0 := {[0]}]} : gmap Z (gset Z)) 0
    = compute_depths {[0 := {[0]}]} 0.
Proof.
  apply (compute_depths_terminates {[0 := {[0]}]} 0 5).
  vm_compute. lia.
Defined.

(** ** structural_metrics: what the numbers are *)

Lemma map_result_fmap {A B : Type} (f : A → result B) (g : A → B)
    (l : list A) :
  (∀ x, x ∈ l → f x = Ok (g x)) → map_result f l = Ok (g <$> l).
Proof.
  induction l as [|x l IH]; intros Hl; [done|].
  cbn [map_result]. rewrite (Hl x) by left. simpl.
  rewrite IH; [done|]. intros y Hy. apply Hl. by right.
Qed.

Lemma truediv_nonzero (a b : Z) :
  b ≠ 0 → truediv a b = Ok (float_of_int a / float_of_int b)%float.
Proof. intros Hb. unfold truediv. by rewrite decide_False. Qed.

Lemma foldl_max_spec (x : Z) (l : list Z) :
  foldl Z.max x l ∈ x :: l ∧ ∀ y, y ∈ x :: l → y ≤ foldl Z.max x l.
Proof.
  revert x. induction l as [|z l IH]; intros x; simpl.
  - split; [left|]. intros y ->%list_elem_of_singleton. done.
  - destruct (IH (x `max` z)) as [Hin Hle]. split.
    + apply elem_of_cons in Hin as [Heq|Hin]; [|by do 2 right].
      rewrite Heq. destruct (Z.max_spec x z) as [[_ ->]|[_ ->]];
        [right; left | left].
    + intros y Hy.
      assert (x `max` z ≤ foldl Z.max (x `max` z) l) by (apply Hle; left).
      apply elem_of_cons in Hy as [->|[->|Hy]%elem_of_cons]; [lia|lia|].
      apply Hle. by right.
Qed.

Lemma elem_of_reached (depths : gmap Z Z) (v : Z) :
  v ∈ reached depths ↔ ∃ d, depths !! v = Some d ∧ 0 ≤ d.
Proof.
  unfold reached. rewrite list_elem_of_fmap. split.
  - intros ([k d] & -> & [Hd Hkd%elem_of_map_to_list]%list_elem_of_filter).
    eauto.
  - intros (d & Hv & Hd). exists (v, d). split; [done|].
    apply list_elem_of_filter. split; [done|]. by apply elem_of_map_to_list.
Qed.

Lemma NoDup_reached (depths : gmap Z Z) : NoDup (reached depths).
Proof.
  unfold reached.
  eapply sublist_NoDup; [apply (NoDup_fst_map_to_list depths)|].
  apply fmap_sublist, sublist_filter.
Qed.

(** The mapping returned, from the depths that [compute_depths] gives. *)
Lemma structural_metrics_run (adj : gmap Z (gset Z)) (r : Z)
    (depths : gmap Z Z) :
  is_Some (adj !! r) → compute_depths adj r = Ok depths →
  depths !! r = Some 0 →
  ∃ mx, max_Z (dep depths <$> reached depths) = Ok mx
    ∧ structural_metrics adj r
      = Ok (mkMetrics (float_of_int mx)
              (float_of_int (sum_Z (dep depths <$> reached depths))
               / float_of_int (len (reached depths)))
              (float_of_int
                 (len (filter (λ n, n_children adj n = 0%Z)
                         (reached depths))))
              (match filter (λ n, (n_children adj n > 0)%Z)
                       (reached depths) with
               | [] => 0
               | n :: nl =>
                   float_of_int (sum_Z (n_children adj <$> n :: nl))
                   / float_of_int (len (n :: nl))
               end)
              (float_of_int (sum_Z (dep depths <$> reached depths))
               / float_of_int (len (reached depths))))%float.
Proof.
  intros [s Hr] Hrun Hroot. unfold structural_metrics. rewrite Hr, Hrun.
  simpl. fold (reached depths).
  assert (HrR : r ∈ reached depths).
  { apply elem_of_reached. by exists 0. }
  destruct (reached depths) as [|n0 reach] eqn:HR;
    [by apply elem_of_nil in HrR|].
  rewrite (map_result_fmap (getitem depths) (dep depths) (n0 :: reach)).
  2:{ intros v Hv. rewrite <- HR in Hv.
      apply elem_of_reached in Hv as (d & Hd & _).
      unfold getitem. rewrite Hd. by rewrite (dep_Some _ _ _ Hd). }
  eexists. split; [reflexivity|].
  cbn [fmap list_fmap max_Z mbind result_bind].
  assert (Hlen : len (n0 :: reach) ≠ 0) by (unfold len; simpl; lia).
  rewrite !(truediv_nonzero _ (len (n0 :: reach))) by done.
  cbn [mbind result_bind].
  destruct (filter (λ n, n_children adj n > 0) (n0 :: reach))
    as [|n1 nl] eqn:Hnl; [done|].
  rewrite (map_result_fmap _ (n_children adj) (n1 :: nl)).
  2:{ intros v Hv. rewrite <- Hnl in Hv.
      apply list_elem_of_filter in Hv as [Hv _]. unfold n_children in *.
      unfold getitem. destruct (adj !! v) as [sv|]; [done|].
      by vm_compute in Hv. }
  cbn [mbind result_bind].
  rewrite truediv_nonzero by (unfold len; simpl; lia).
  done.
Qed.

(** X11. What structural_metrics returns on a mapping in which every
    child is a key and the root is one: over the nodes a path from the
    root reaches, each counted once, depth is the greatest distance from
    the root, avg_depth and wiener_root_avg are the sum of the distances
    divided by the number of nodes, leaves is the number of nodes
    without children, and branching_factor is the number of children of
    the nodes that have some divided by the number of these nodes, 0.0
    when there is none. *)
Theorem structural_metrics_meaning (adj : gmap Z (gset Z)) (r : Z) :
  closed adj → is_Some (adj !! r) →
  ∃ m R ds mx,
    structural_metrics adj r = Ok m
    ∧ NoDup R ∧ (∀ v, v ∈ R ↔ reachable_from adj r v)
    ∧ Forall2 (λ v d, 0 ≤ d ∧ distance adj r (Z.to_nat d) v) R ds
    ∧ mx ∈ ds ∧ (∀ d, d ∈ ds → d ≤ mx)
    ∧ depth m = float_of_int mx
    ∧ avg_depth m = (float_of_int (sum_Z ds) / float_of_int (len R))%float
    ∧ wiener_root_avg m
      = (float_of_int (sum_Z ds) / float_of_int (len R))%float
    ∧ leaves m = float_of_int (len (filter (λ n, n_children adj n = 0) R))
    ∧ branching_factor m
      = match filter (λ n, n_children adj n > 0) R with
        | [] => 0%float
        | n :: nl =>
            (float_of_int (sum_Z (n_children adj <$> n :: nl))
             / float_of_int (len (n :: nl)))%float
        end.
Proof.
  intros Hclosed Hr.
  destruct (compute_depths_fuel_enough adj r (size adj) Hclosed Hr)
    as (depths & Hrun & Hfin); [done|].
  pose proof Hfin as [(Hdom & Hroot & Hsound) Hproc].
  destruct (structural_metrics_run adj r depths Hr Hrun Hroot)
    as (mx & Hmx & Hm).
  eexists _, (reached depths), (dep depths <$> reached depths), mx.
  split; [exact Hm|]. simpl. split_and!; try done.
  - apply NoDup_reached.
  - intros v. rewrite elem_of_reached. split.
    + intros (d & Hv & Hd). exists (Z.to_nat d).
      rewrite <- (dep_Some _ _ _ Hv). apply Hsound.
      rewrite (dep_Some _ _ _ Hv). lia.
    + intros [n Hn].
      destruct (finished_complete adj r depths n v Hfin Hn) as [Hv _].
      exists (dep depths v). split; [by apply dep_lookup|].
      by apply Hsound.
  - apply Forall2_fmap_r, Forall_Forall2_diag, Forall_forall.
    intros v (d & Hv & Hd)%elem_of_reached.
    apply finished_distance; [done|]. rewrite (dep_Some _ _ _ Hv). lia.
  - destruct (dep depths <$> reached depths) as [|d0 ds]; [done|].
    injection Hmx as <-. apply foldl_max_spec.
  - destruct (dep depths <$> reached depths) as [|d0 ds]; [done|].
    injection Hmx as <-. apply foldl_max_spec.
Qed.

Lemma structural_metrics_meaning_witness :
  ∃ m, structural_metrics sample_tree 0 = Ok m
    ∧ depth m = 2%float ∧ leaves m = 2%float.
Proof.
  destruct (structural_metrics_meaning sample_tree 0)
    as (m & R & ds & mx & Hm & _).
  - exact (build_tree_closed sample_cascade sample_tree build_tree_sample).
  - by eexists.
  - exists m. split; [exact Hm|].
    vm_compute in Hm. injection Hm as <-. by vm_compute.
Defined.

(** ** temporal_features: it returns on every prefix *)

Lemma index_in_range {A : Type} (l : list A) (i : Z) :
  0 ≤ i → i < len l → ∃ x, index l i = Ok x ∧ l !! Z.to_nat i = Some x.
Proof.
  intros H0 Hlt. unfold index. cbv zeta.
  rewrite (decide_False (P := i < 0)) by lia.
  rewrite (decide_False (P := i < 0)) by lia.
  destruct (lookup_lt_is_Some_2 l (Z.to_nat i)) as [x Hx];
    [unfold len in Hlt; lia|].
  rewrite Hx. eauto.
Qed.

Lemma index_last {A : Type} (l : list A) (x : A) :
  last l = Some x → index l (-1) = Ok x.
Proof.
  intros Hlast. unfold index, len. rewrite last_lookup in Hlast.
  assert (length l ≠ 0)%nat by (destruct l; [done|simpl; lia]).
  cbv zeta. rewrite (decide_True (P := -1 < 0)) by lia.
  rewrite decide_False by lia.
  replace (Z.to_nat (Z.of_nat (length l) + -1)) with (pred (length l)) by lia.
  by rewrite Hlast.
Qed.

Lemma temporal_features_run (prefix : Cascade) :
  ∃ t, temporal_features prefix = Ok t
    ∧ time_to_k t = match last (events prefix) with
                    | Some e => time e
                    | None => 0%float
                    end.
Proof.
  unfold temporal_features. destruct prefix as [c r pt evs]. simpl.
  destruct (last evs) as [e|] eqn:Hlast.
  - assert (Hk : len evs > 0).
    { unfold len. destruct evs; [done|simpl; lia]. }
    rewrite (decide_True (P := len evs > 0)) by done.
    rewrite (index_last _ _ Hlast). simpl.
    destruct (decide (len evs > 1)) as [Hk1|Hk1]; [|by eexists].
    assert (Hhalf : 1 ≤ len evs `div` 2).
    { apply Z.div_le_lower_bound; lia. }
    rewrite (decide_True (P := len evs `div` 2 >= 1)) by lia.
    destruct (index_in_range (time <$> evs) (len evs `div` 2 - 1))
      as (th & -> & _); [lia| |by eexists].
    unfold len at 2. rewrite length_fmap. fold (len evs).
    assert (len evs `div` 2 ≤ len evs) by (apply Z.div_le_upper_bound; lia).
    lia.
  - apply last_None in Hlast as ->. by eexists.
Qed.

(** X12. temporal_features returns on every prefix: the guards on the
    number of events keep every index in range.  time_to_k is the time
    of the last event, 0.0 when there is none; with fewer than two
    events the four other features are 0.0, and with two events
    speed_change is 0.0, the second half having no inter-time. *)
Theorem temporal_features_total (prefix : Cascade) :
  ∃ t, temporal_features prefix = Ok t
    ∧ time_to_k t = match last (events prefix) with
                    | Some e => time e
                    | None => 0%float
                    end
    ∧ (len (events prefix) ≤ 1 →
         mean_inter_time t = 0%float ∧ var_inter_time t = 0%float
         ∧ half_life_ratio t = 0%float)
    ∧ (len (events prefix) ≤ 2 → speed_change t = 0%float).
Proof.
  destruct (temporal_features_run prefix) as (t & Hrun & Hlast).
  exists t. split_and!; [done|done| |].
  - destruct prefix as [c r pt [|e1 [|e2 evs]]]; simpl.
    + injection Hrun as <-. done.
    + injection Hrun as <-. done.
    + unfold len. simpl. lia.
  - destruct prefix as [c r pt [|e1 [|e2 [|e3 evs]]]]; simpl.
    + injection Hrun as <-. done.
    + injection Hrun as <-. done.
    + injection Hrun as <-. done.
    + unfold len. simpl. lia.
Qed.

(** ** extract_features *)

Lemma structural_metrics_total (adj : gmap Z (gset Z)) (r : Z) :
  closed adj → ∃ m, structural_metrics adj r = Ok m.
Proof.
  intros Hclosed. destruct (adj !! r) as [s|] eqn:Hr.
  - destruct (compute_depths_fuel_enough adj r (size adj) Hclosed)
      as (depths & Hrun & [(_ & Hroot & _) _]); [eauto|done|].
    destruct (structural_metrics_run adj r depths) as (mx & _ & Hm);
      [eauto|done|done|eauto].
  - unfold structural_metrics. rewrite Hr. eauto.
Qed.


Section Features.
Import Store.



End Features.

(** ** label_distribution *)

Lemma Counter_lookup (labels : list Z) (x : Z) :
  Counter labels !! x
  = if decide (x ∈ labels) then Some (len (filter (λ y, y = x) labels))
    else None.
Proof.
  unfold Counter. induction labels as [|y labels IH] using rev_ind.
  - rewrite decide_False by apply not_elem_of_nil. done.
  - rewrite foldl_snoc, filter_app.
    destruct (decide (y = x)) as [->|Hne].
    + rewrite lookup_insert_eq, IH.
      rewrite (decide_True (P := x ∈ labels ++ [x]))
        by (apply elem_of_app; right; left).
      rewrite filter_cons_True, filter_nil by done. f_equal.
      unfold len. rewrite length_app. simpl.
      case_decide as Hin; simpl; [lia|].
      rewrite (filter_none (λ y, y = x) labels); [done|].
      intros z Hz ->. done.
    + rewrite lookup_insert_ne, IH by done.
      rewrite filter_cons_False, filter_nil, app_nil_r by done.
      destruct (decide (x ∈ labels)) as [Hin|Hin].
      * rewrite decide_True; [done|]. apply elem_of_app. by left.
      * rewrite decide_False; [done|].
        rewrite elem_of_app, list_elem_of_singleton. intros [?|?]; done.
Qed.

(** X14. label_distribution counts each label: a label of the list is
    mapped to the number of its occurrences, no other value is a key,
    and the mapping has fewer than two keys, the test by which main
    skips the training, exactly when the labels are all the same. *)
Theorem label_distribution_spec (labels : list Z) :
  (∀ x, x ∈ labels →
     label_distribution labels !! x
     = Some (len (filter (λ y, y = x) labels)))
  ∧ (∀ x, x ∉ labels → label_distribution labels !! x = None)
  ∧ ((size (label_distribution labels) < 2)%nat
     ↔ ∀ x y, x ∈ labels → y ∈ labels → x = y).
Proof.
  unfold label_distribution. split_and!.
  - intros x Hx. by rewrite Counter_lookup, decide_True.
  - intros x Hx. by rewrite Counter_lookup, decide_False.
  - assert (Hdom : ∀ x, x ∈ dom (Counter labels) ↔ x ∈ labels).
    { intros x. rewrite elem_of_dom, Counter_lookup.
      case_decide; split; try done; by intros [? ?]. }
    rewrite <- size_dom. split.
    + intros Hsize x y Hx Hy. destruct (decide (x = y)) as [|Hne]; [done|].
      assert (Hsub : ({[x; y]} : gset Z) ⊆ dom (Counter labels)).
      { intros z [->%elem_of_singleton| ->%elem_of_singleton]%elem_of_union;
          by apply Hdom. }
      apply subseteq_size in Hsub.
      rewrite size_union, !size_singleton in Hsub by set_solver. lia.
    + intros Hall. destruct labels as [|x labels].
      * assert (dom (Counter []) = (∅ : gset Z)) as -> by set_solver.
        rewrite size_empty. lia.
      * assert (dom (Counter (x :: labels)) = ({[x]} : gset Z)) as ->.
        { apply set_eq. intros z. rewrite Hdom, elem_of_singleton. split.
          - intros Hz. apply Hall; [done|left].
          - intros ->. left. }
        rewrite size_singleton. lia.
Qed.

(** ** feature_importances *)

Section KeySortProps.
Context {A : Type} (key : A → float).

Lemma insert_by_key_perm (x : A) (l : list A) :
  insert_by_key key x l ≡ₚ x :: l.
Proof.
  induction l as [|y l IH]; simpl; [done|].
  destruct (key x <? key y)%float; [done|].
  rewrite IH. apply Permutation_swap.
Qed.

Lemma sort_by_key_perm (l : list A) : sort_by_key key l ≡ₚ l.
Proof.
  unfold sort_by_key. change l with ([] ++ l) at 2. generalize (@nil A).
  induction l as [|x l IH]; intros acc; simpl.
  - by rewrite app_nil_r.
  - rewrite IH, insert_by_key_perm. simpl. apply Permutation_middle.
Qed.

Lemma insert_by_key_sorted (x : A) (l : list A) :
  ordered_key key x → Forall (ordered_key key) l →
  StronglySorted (key_le key) l →
  StronglySorted (key_le key) (insert_by_key key x l).
Proof.
  intros Hx Hl Hs. induction Hs as [|y l Hs IH Hy]; simpl.
  - by repeat constructor.
  - apply Forall_cons in Hl as [Hoy Hl].
    destruct (key x <? key y)%float eqn:Hlt.
    + constructor; [by constructor|]. constructor.
      * by apply ltb_true_leb.
      * eapply Forall_impl; [exact Hy|]. intros z Hz. unfold key_le in *.
        apply ltb_true_leb. by eapply ltb_leb_trans.
    + constructor; [auto|].
      rewrite insert_by_key_perm. constructor; [|done].
      by apply ltb_false_leb.
Qed.

Lemma at_key_insert (t : float) (x : A) (l : list A) :
  StronglySorted (key_le key) l →
  at_key key t (insert_by_key key x l) = at_key key t l ++ at_key key t [x].
Proof.
  unfold at_key. induction 1 as [|y l Hs IH Hy]; simpl; [done|].
  destruct (key x <? key y)%float eqn:Hlt.
  - destruct (decide ((key x =? t)%float = true)) as [He|He].
    + rewrite (filter_cons_True _ x), (filter_cons_True _ x []) by done.
      rewrite (filter_none _ (y :: l)); [done|].
      intros z Hz Hzt.
      assert (Hxz : (key x <? key z)%float = true).
      { apply elem_of_cons in Hz as [->|Hz]; [done|].
        eapply ltb_leb_trans; [exact Hlt|].
        eapply Forall_forall in Hy; [exact Hy|done]. }
      by rewrite (eqb_ltb_false _ _ _ He Hzt) in Hxz.
    + rewrite (filter_cons_False _ x), (filter_cons_False _ x []) by done.
      by rewrite filter_nil, app_nil_r.
  - destruct (decide ((key y =? t)%float = true)) as [Hyt|Hyt].
    + rewrite !(filter_cons_True _ y) by done. by rewrite IH.
    + rewrite !(filter_cons_False _ y) by done. by rewrite IH.
Qed.

Lemma sort_by_key_spec (l : list A) :
  Forall (ordered_key key) l →
  StronglySorted (key_le key) (sort_by_key key l)
  ∧ ∀ t, at_key key t (sort_by_key key l) = at_key key t l.
Proof.
  unfold sort_by_key.
  enough (Hgen : ∀ acc, Forall (ordered_key key) l →
            Forall (ordered_key key) acc →
            StronglySorted (key_le key) acc →
            StronglySorted (key_le key)
              (foldl (λ acc x, insert_by_key key x acc) acc l)
            ∧ ∀ t, at_key key t (foldl (λ acc x, insert_by_key key x acc) acc l)
                   = at_key key t acc ++ at_key key t l).
  { intros Hl. apply (Hgen []); [done|constructor|constructor]. }
  induction l as [|x l IH]; intros acc Hl Hacc Hs; simpl.
  - split; [done|]. intros t. unfold at_key. by rewrite filter_nil, app_nil_r.
  - apply Forall_cons in Hl as [Hx Hl].
    destruct (IH (insert_by_key key x acc)) as [Hs' Hat]; [done| | |].
    + rewrite insert_by_key_perm. by constructor.
    + by apply insert_by_key_sorted.
    + split; [done|]. intros t. rewrite Hat, at_key_insert by done.
      rewrite <- app_assoc. f_equal. unfold at_key. by rewrite <- filter_app.
Qed.

Lemma StronglySorted_reverse (R : relation A) (l : list A) :
  StronglySorted R l → StronglySorted (flip R) (reverse l).
Proof.
  induction 1 as [|x l Hs IH Hx]; [constructor|].
  rewrite reverse_cons.
  apply StronglySorted_app_2; [|done|by repeat constructor].
  intros y z Hy ->%list_elem_of_singleton. unfold flip.
  rewrite elem_of_reverse in Hy.
  eapply Forall_forall in Hx; [exact Hx|done].
Qed.

(** The sort in reverse: descending, and as stable as the other. *)
Lemma sort_by_key_reverse_spec (l : list A) :
  Forall (ordered_key key) l →
  sort_by_key_reverse key l ≡ₚ l
  ∧ StronglySorted (flip (key_le key)) (sort_by_key_reverse key l)
  ∧ ∀ t, at_key key t (sort_by_key_reverse key l) = at_key key t l.
Proof.
  intros Hl. unfold sort_by_key_reverse.
  destruct (sort_by_key_spec (reverse l)) as [Hs Hat].
  { by rewrite reverse_Permutation. }
  split_and!.
  - by rewrite reverse_Permutation, sort_by_key_perm, reverse_Permutation.
  - by apply StronglySorted_reverse.
  - intros t. unfold at_key in *. rewrite filter_reverse, Hat.
    by rewrite filter_reverse, reverse_involutive.
Qed.

End KeySortProps.

(** X15. feature_importances, for importances that are not NaN and
    [top_n >= 0], returns the [top_n] pairs of greatest importance (all
    of them when there are fewer) in descending order of importance:
    every pair it leaves out is at most as important as every pair it
    returns, and pairs of equal importance come in the order of the
    feature names. *)
Theorem feature_importances_spec {A : Type} (importances : list float)
    (feature_names : list A) (top_n : Z) :
  Forall (λ x, is_nan x = false) importances → 0 ≤ top_n →
  ∃ rest,
    feature_importances importances feature_names top_n ++ rest
      ≡ₚ zip feature_names importances
    ∧ len (feature_importances importances feature_names top_n)
      = top_n `min` len (zip feature_names importances)
    ∧ StronglySorted (λ p q, (q.2 <=? p.2)%float = true)
        (feature_importances importances feature_names top_n)
    ∧ (∀ p q, p ∈ feature_importances importances feature_names top_n →
         q ∈ rest → (q.2 <=? p.2)%float = true)
    ∧ (∀ t, filter (λ p, (p.2 =? t)%float = true)
              (feature_importances importances feature_names top_n ++ rest)
            = filter (λ p, (p.2 =? t)%float = true)
                (zip feature_names importances)).
Proof.
  intros Hnan Hn. unfold feature_importances. cbv zeta.
  set (pairs := zip feature_names importances).
  assert (Hord : Forall (λ p : A * float, is_nan p.2 = false) pairs).
  { apply Forall_forall. intros [a x] Hin. simpl.
    apply elem_of_zip_r in Hin. by eapply Forall_forall in Hnan. }
  destruct (sort_by_key_reverse_spec snd pairs Hord) as (Hperm & Hs & Hat).
  rewrite slice_to_nonneg by done.
  exists (drop (Z.to_nat top_n) (sort_by_key_reverse snd pairs)).
  rewrite take_drop.
  rewrite <- (take_drop (Z.to_nat top_n) (sort_by_key_reverse snd pairs)) in Hs.
  split_and!; [done| | | |done].
  - unfold len. rewrite length_take, Hperm. lia.
  - by eapply StronglySorted_app_1_l.
  - intros p q Hp Hq.
    by eapply (StronglySorted_app_1_elem_of _ _ _ p q) in Hs.
Qed.

Lemma feature_importances_spec_witness :
  ∃ rest,
    feature_importances [0.25; 0.5; 0.25]%float [1; 2; 3] 2 ++ rest
      ≡ₚ zip [1; 2; 3] [0.25; 0.5; 0.25]%float
    ∧ feature_importances [0.25; 0.5; 0.25]%float [1; 2; 3] 2
      = [(2, 0.5%float); (1, 0.25%float)].
Proof.
  destruct (feature_importances_spec [0.25; 0.5; 0.25]%float [1; 2; 3] 2)
    as (rest & Hperm & _).
  - repeat constructor.
  - lia.
  - exists rest. split; [exact Hperm | reflexivity].
Defined.

(** ** parse_dataset *)

Section ParseProps.
Variable int_of_str : str → option Z.
Variable float_of_str : str → option float.

Lemma str_split_nonempty (sep : Z) (s : str) : str_split sep s ≠ [].
Proof.
  induction s as [|c s IH]; simpl; [done|].
  case_decide; [done|]. by destruct (str_split sep s).
Qed.

(** An entry adds one event or none, and never raises: a path has one
    user id at least. *)
Lemma parse_item_ok (root : Z) (events : list Event) (item : str) :
  ∃ events', parse_item int_of_str float_of_str root events item = Ok events'
    ∧ (events' = events ∨ ∃ e, events' = events ++ [e]).
Proof.
  unfold parse_item. case_decide; [eauto|].
  destruct (str_split 58 item) as [|path_part [|time_part [|]]]; eauto.
  destruct (float_of_str time_part) as [time_rel|]; [|eauto].
  cbv zeta. case_decide; [eauto|].
  destruct (mapM int_of_str (str_split 47 path_part)) as [user_ids|] eqn:Hids;
    [|eauto].
  assert (Hlen : 1 ≤ len user_ids).
  { apply length_mapM in Hids. unfold len.
    pose proof (str_split_nonempty 47 path_part).
    destruct (str_split 47 path_part); [done|simpl in Hids; lia]. }
  destruct (decide (len user_ids = 1)) as [H1|H1].
  - destruct (index_in_range user_ids 0) as (child & -> & _); [lia..|].
    simpl. eauto.
  - assert (Hlast : ∃ child, index user_ids (-1) = Ok child).
    { destruct (last user_ids) as [child|] eqn:Hl.
      - exists child. by apply index_last.
      - apply last_None in Hl. subst. unfold len in Hlen. simpl in Hlen. lia. }
    destruct Hlast as [child ->].
    assert (Hprev : ∃ parent, index user_ids (-2) = Ok parent).
    { unfold index. cbv zeta. rewrite (decide_True (P := -2 < 0)) by lia.
      rewrite decide_False by lia.
      destruct (lookup_lt_is_Some_2 user_ids (Z.to_nat (len user_ids + -2)))
        as [parent Hp]; [unfold len in *; lia|].
      rewrite Hp. eauto. }
    destruct Hprev as [parent ->]. simpl. eauto.
Qed.

Lemma parse_line_ok (cascades : list Cascade) (line : str) :
  ∃ cascades', parse_line int_of_str float_of_str cascades line = Ok cascades'
    ∧ (cascades' = cascades
       ∨ ∃ c, cascades' = cascades ++ [c]
           ∧ events c ≠ []
           ∧ NoDup (user <$> events c)
           ∧ (Forall ordered_time (events c) →
                StronglySorted time_le (events c))).
Proof.
  unfold parse_line. cbv zeta. case_decide; [eauto|].
  case_decide as Hparts; [eauto|].
  set (parts := str_split 9 (str_strip line)) in *.
  destruct (index_in_range parts 0) as (s0 & -> & _); [lia..|].
  destruct (index_in_range parts 1) as (s1 & -> & _); [lia..|].
  destruct (index_in_range parts 2) as (s2 & -> & _); [lia..|].
  destruct (index_in_range parts 3) as (s3 & -> & _); [lia..|].
  cbn [mbind result_bind].
  destruct (parse_header int_of_str float_of_str s0 s1 s2 s3)
    as [[[[c r] pt] rn]|]; [|eauto].
  destruct (index_in_range parts 4) as (s4 & -> & _); [lia..|].
  cbn [mbind result_bind].
  destruct (for_each_total (λ _ _, True)
              (parse_item int_of_str float_of_str r) (str_split 32 s4) [])
    as (events & -> & _); [done| |].
  { intros seen item evs _.
    destruct (parse_item_ok r evs item) as (evs' & Hrun & _). eauto. }
  cbn [mbind result_bind].
  case_decide as Hlen; [eauto|].
  eexists. split; [done|]. right. eexists. split; [done|]. simpl.
  split_and!.
  - intros Hnil. rewrite Hnil in Hlen. done.
  - rewrite sort_by_time_perm.
    unfold earliest_event_by_user. rewrite keyed_users.
    + apply foldl_dedup_keyed. split; constructor.
    + apply foldl_dedup_keyed. split; constructor.
  - intros Hord. apply sort_by_time_sorted.
    by rewrite <- sort_by_time_perm.
Qed.

(** X16. parse_dataset never raises: the fields and path entries it
    indexes are there whenever it comes to index them.  It returns at
    most one cascade for a line, and each cascade it returns has at
    least one event, one event for a user at most, and its events in
    ascending order of time when no time is NaN, whatever the text of
    the file. *)
Theorem parse_dataset_spec (lines : list str) :
  ∃ cascades, parse_dataset int_of_str float_of_str lines = Ok cascades
    ∧ (length cascades ≤ length lines)%nat
    ∧ Forall (λ c, events c ≠ []
                   ∧ NoDup (user <$> events c)
                   ∧ (Forall ordered_time (events c) →
                        StronglySorted time_le (events c))) cascades.
Proof.
  unfold parse_dataset.
  eapply (for_each_total
            (λ seen cascades,
               (length cascades ≤ length seen)%nat
               ∧ Forall (λ c, events c ≠ []
                              ∧ NoDup (user <$> events c)
                              ∧ (Forall ordered_time (events c) →
                                   StronglySorted time_le (events c)))
                   cascades)).
  - split; [done|constructor].
  - intros seen line cascades [Hlen Hall].
    destruct (parse_line_ok cascades line)
      as (cascades' & Hrun & [->|(c & -> & Hc)]).
    + exists cascades. rewrite length_app. simpl. split; [done|].
      split; [lia|done].
    + eexists. split; [done|]. rewrite !length_app. simpl. split; [lia|].
      apply Forall_app. split; [done|]. by constructor.
Qed.

End ParseProps.

(** ** get_k_prefix: the prefix has a list of its own *)

Section PrefixCopy.
Import Store.

Lemma add_event_run (h : heap) (self : nat) (o : object) (evs : list Event)
    (u p : Z) (t : float) :
  objects h !! self = Some o → lists h !! obj_events o = Some evs →
  add_event self u p t h
  = Some (tt, mkHeap (<[obj_events o := evs ++ [mkEvent u p t]]> (lists h))
                (objects h)).
Proof.
  intros Ho Hl. unfold add_event, get_object, read_list, write_list.
  rewrite !run_bind, Ho. simpl. rewrite !run_bind, Hl. simpl.
  by rewrite Hl.
Qed.

(** X17. The prefix get_k_prefix returns is another object than its
    source and its events attribute is another list: an event appended
    later to the source with add_event does not show in the prefix, nor
    one appended to the prefix in the source.  (The copy is shallow: the
    two lists hold the same Event objects.  The store keeps events by
    value, which tells nothing about a change made to an Event itself;
    no function of the repository makes one.) *)
Theorem get_k_prefix_copy (h h1 : heap) (self p : nat) (c : Cascade)
    (k u pr : Z) (t : float) :
  snapshot h self = Some c →
  get_k_prefix self k h = Some (Some p, h1) →
  p ≠ self
  ∧ ∃ sc pc h2 h3,
      snapshot h1 self = Some sc ∧ snapshot h1 p = Some pc
      ∧ add_event self u pr t h1 = Some (tt, h2)
      ∧ snapshot h2 p = Some pc
      ∧ add_event p u pr t h1 = Some (tt, h3)
      ∧ snapshot h3 self = Some sc.
Proof.
  intros (o & Ho & Hl & H1 & H2 & H3)%snapshot_Some.
  assert (Hlt : (obj_events o < length (lists h))%nat)
    by (by eapply lookup_lt_Some).
  assert (Hself : (self < length (objects h))%nat)
    by (by eapply lookup_lt_Some).
  rewrite (get_k_prefix_run h self o (events c) k Ho Hl).
  case_decide; [done|]. intros [= <- <-]. split; [lia|].
  set (pre := slice_to (sort_by_time (events c)) k).
  set (op := mkObject (obj_cid o) (obj_root o) (obj_publish_time o)
               (length (lists h) + 2)).
  assert (Hos : objects (prefix_heap h o (events c) k) !! self = Some o).
  { unfold prefix_heap. simpl. by apply lookup_app_l_Some. }
  assert (Hop : objects (prefix_heap h o (events c) k)
                  !! length (objects h) = Some op).
  { unfold prefix_heap. simpl. by rewrite lookup_app_r, Nat.sub_diag. }
  assert (Hls : lists (prefix_heap h o (events c) k) !! obj_events o
                = Some (sort_by_time (events c))).
  { unfold prefix_heap. simpl. rewrite lookup_app_l
      by (by rewrite length_insert).
    by apply list_lookup_insert_eq. }
  assert (Hlp : lists (prefix_heap h o (events c) k) !! obj_events op
                = Some pre).
  { unfold prefix_heap. simpl.
    rewrite lookup_app_r by (rewrite length_insert; lia).
    rewrite length_insert.
    by replace (length (lists h) + 2 - length (lists h))%nat with 2%nat
      by lia. }
  exists (mkCascade (cid c) (root c) (publish_time c)
            (sort_by_time (events c))),
    (mkCascade (cid c) (root c) (publish_time c) pre).
  eexists _, _. split_and!.
  - apply snapshot_Some. by exists o.
  - apply snapshot_Some. exists op. simpl. by rewrite H1, H2, H3.
  - by apply add_event_run.
  - apply snapshot_Some. exists op. simpl. rewrite H1, H2, H3.
    split_and!; try done.
    rewrite list_lookup_insert_ne; [done|]. simpl. lia.
  - by apply add_event_run.
  - apply snapshot_Some. exists o. simpl. split_and!; try done.
    rewrite list_lookup_insert_ne; [done|]. simpl. lia.
Qed.

Lemma get_k_prefix_copy_witness :
  ∃ h1 sc pc h2 h3,
    get_k_prefix 0 2 sample_heap = Some (Some 1%nat, h1)
    ∧ snapshot h1 0 = Some sc ∧ snapshot h1 1 = Some pc
    ∧ add_event 0 9 0 8%float h1 = Some (tt, h2)
    ∧ snapshot h2 1 = Some pc
    ∧ add_event 1 9 0 8%float h1 = Some (tt, h3)
    ∧ snapshot h3 0 = Some sc.
Proof.
  pose (evs := [mkEvent 1 0 5%float; mkEvent 2 0 1%float;
                mkEvent 3 2 2%float]).
  pose (h1 := prefix_heap sample_heap (mkObject 7 0 100%float 0) evs 2).
  destruct (get_k_prefix_copy sample_heap h1 0 1 (mkCascade 7 0 100%float evs)
              2 9 0 8%float eq_refl eq_refl)
    as [_ (sc & pc & h2 & h3 & Hcopy)].
  exists h1, sc, pc, h2, h3. split; [reflexivity | exact Hcopy].
Defined.

End PrefixCopy.

(** ** get_k_prefix: prefixes of one cascade *)

Section NestedPrefixes.
Import Store.

(** X18. Two calls of get_k_prefix on one cascade (times not NaN), for
    lengths [k1] and [k2] between 0 and the number of events, give two
    objects whose events are the first [k1] and the first [k2] events of
    one and the same list, the events of the cascade in ascending order
    of time: the shorter prefix is the beginning of the longer one, and
    the first prefix is as it was after the second call. *)
Theorem get_k_prefix_nested (h : heap) (self : nat) (c : Cascade)
    (k1 k2 : Z) :
  snapshot h self = Some c → Forall ordered_time (events c) →
  0 ≤ k1 → k1 ≤ len (events c) → 0 ≤ k2 → k2 ≤ len (events c) →
  ∃ p1 h1 p2 h2 c1 c2 sorted,
    get_k_prefix self k1 h = Some (Some p1, h1)
    ∧ get_k_prefix self k2 h1 = Some (Some p2, h2)
    ∧ snapshot h1 p1 = Some c1
    ∧ snapshot h2 p1 = Some c1
    ∧ snapshot h2 p2 = Some c2
    ∧ sorted ≡ₚ events c ∧ StronglySorted time_le sorted
    ∧ events c1 = take (Z.to_nat k1) sorted
    ∧ events c2 = take (Z.to_nat k2) sorted.
Proof.
  intros (o & Ho & Hl & H1 & H2 & H3)%snapshot_Some Hord Hk1 Hk1' Hk2 Hk2'.
  assert (Hlt : (obj_events o < length (lists h))%nat)
    by (by eapply lookup_lt_Some).
  set (evs := events c) in *. set (sorted := sort_by_time evs).
  assert (Hsorted : StronglySorted time_le sorted)
    by (by apply sort_by_time_sorted).
  set (h1 := prefix_heap h o evs k1).
  assert (Ho1 : objects h1 !! self = Some o).
  { unfold h1, prefix_heap. simpl. by apply lookup_app_l_Some. }
  assert (Hl1 : lists h1 !! obj_events o = Some sorted).
  { unfold h1, prefix_heap. simpl.
    rewrite lookup_app_l by (by rewrite length_insert).
    by apply list_lookup_insert_eq. }
  set (h2 := prefix_heap h1 o sorted k2).
  set (op1 := mkObject (obj_cid o) (obj_root o) (obj_publish_time o)
                (length (lists h) + 2)).
  set (op2 := mkObject (obj_cid o) (obj_root o) (obj_publish_time o)
                (length (lists h1) + 2)).
  assert (Hlen1 : length (lists h1) = (length (lists h) + 3)%nat).
  { unfold h1, prefix_heap. simpl. rewrite length_app, length_insert.
    simpl. lia. }
  assert (Hp1 : objects h1 !! length (objects h) = Some op1).
  { unfold h1, prefix_heap. simpl. by rewrite lookup_app_r, Nat.sub_diag. }
  assert (Hpl1 : lists h1 !! (length (lists h) + 2)%nat
                 = Some (slice_to sorted k1)).
  { unfold h1, prefix_heap. simpl.
    rewrite lookup_app_r by (rewrite length_insert; lia).
    rewrite length_insert.
    by replace (length (lists h) + 2 - length (lists h))%nat with 2%nat
      by lia. }
  assert (Hrun1 : get_k_prefix self k1 h
                  = Some (Some (length (objects h)), h1)).
  { rewrite (get_k_prefix_run h self o evs k1 Ho Hl).
    by rewrite decide_False by lia. }
  clearbody h1.
  exists (length (objects h)), h1, (length (objects h1)), h2,
    (mkCascade (cid c) (root c) (publish_time c) (slice_to sorted k1)),
    (mkCascade (cid c) (root c) (publish_time c) (slice_to sorted k2)),
    sorted.
  split_and!.
  - done.
  - rewrite (get_k_prefix_run h1 self o sorted k2 Ho1 Hl1).
    rewrite decide_False; [done|].
    unfold len, sorted. rewrite sort_by_time_length. fold (len evs). lia.
  - apply snapshot_Some. exists op1. simpl. by rewrite H1, H2, H3.
  - apply snapshot_Some. exists op1. simpl. rewrite H1, H2, H3.
    split_and!; try done.
    + unfold h2, prefix_heap. cbn [lists objects]. by apply lookup_app_l_Some.
    + unfold h2, prefix_heap. cbn [lists objects].
      rewrite lookup_app_l by (rewrite length_insert; lia).
      rewrite list_lookup_insert_ne by lia. done.
  - apply snapshot_Some. exists op2. simpl. rewrite H1, H2, H3.
    split_and!; try done.
    + unfold h2, prefix_heap. cbn [lists objects].
      by rewrite lookup_app_r, Nat.sub_diag.
    + unfold h2, prefix_heap. cbn [lists objects].
      rewrite lookup_app_r by (rewrite length_insert; lia).
      rewrite length_insert.
      replace (length (lists h1) + 2 - length (lists h1))%nat with 2%nat
        by lia.
      cbn [lookup list_lookup]. by rewrite (sort_by_time_sorted_id sorted).
  - apply sort_by_time_perm.
  - done.
  - simpl. by apply slice_to_nonneg.
  - simpl. by apply slice_to_nonneg.
Qed.

Lemma get_k_prefix_nested_witness :
  ∃ p1 h1 p2 h2 c1 c2,
    get_k_prefix 0 3 sample_heap = Some (Some p1, h1)
    ∧ get_k_prefix 0 1 h1 = Some (Some p2, h2)
    ∧ snapshot h2 p1 = Some c1
    ∧ snapshot h2 p2 = Some c2
    ∧ events c2 = take 1 (events c1).
Proof.
  destruct (get_k_prefix_nested sample_heap 0
              (mkCascade 7 0 100%float
                 [mkEvent 1 0 5%float; mkEvent 2 0 1%float;
                  mkEvent 3 2 2%float]) 3 1)
    as (p1 & h1 & p2 & h2 & c1 & c2 & sorted & Hrun1 & Hrun2 & _ & Hc1 & Hc2
        & _ & _ & He1 & He2).
  - reflexivity.
  - repeat constructor.
  - lia.
  - unfold len. simpl. lia.
  - lia.
  - unfold len. simpl. lia.
  - exists p1, h1, p2, h2, c1, c2.
    split_and!; [exact Hrun1|exact Hrun2|exact Hc1|exact Hc2|].
    rewrite He1, He2. simpl. by rewrite take_take.
Defined.

End NestedPrefixes.

(** ** The tree of a cascade in order of propagation *)

Lemma well_rooted_reachable (c : Cascade) (adj : gmap Z (gset Z)) :
  tree_of (root c) (events c) adj → well_rooted (root c) (events c) →
  ∀ v, is_Some (adj !! v) → reachable_from adj (root c) v.
Proof.
  intros [Hk He] Hwr.
  assert (Huser : ∀ (i : nat) e, events c !! i = Some e →
            reachable_from adj (root c) (parent e)
            ∧ reachable_from adj (root c) (user e)).
  { induction i as [i IH] using lt_wf_ind. intros e Hi.
    assert (Hp : reachable_from adj (root c) (parent e)).
    { destruct (Hwr i e Hi) as [->|(j & e' & Hj & He' & <-)].
      - exists 0%nat. constructor.
      - by apply (IH j Hj e'). }
    split; [done|]. destruct Hp as [n Hn]. exists (S n).
    apply path_step with (parent e); [done|].
    apply He. exists e. split; [|done]. by eapply list_elem_of_lookup_2. }
  intros v [->|(e & [i Hi]%list_elem_of_lookup & [-> | ->])]%Hk.
  - exists 0%nat. constructor.
  - by apply (Huser i e).
  - by apply (Huser i e).
Qed.

(** X19. On a cascade whose events come in an order of propagation (the
    parent of each event is the root or the user of an earlier event),
    every node of the tree build_tree returns is reachable from the
    root: compute_depths returns without a -1, each depth being the
    length of a shortest path from the root. *)
Theorem build_tree_all_reachable (c : Cascade) :
  well_rooted (root c) (events c) →
  ∃ adj depths,
    build_tree c = Ok adj
    ∧ compute_depths adj (root c) = Ok depths
    ∧ (∀ v, is_Some (adj !! v) → reachable_from adj (root c) v)
    ∧ (∀ v, is_Some (adj !! v) →
         ∃ n, depths !! v = Some (Z.of_nat n) ∧ distance adj (root c) n v).
Proof.
  intros Hwr. destruct (build_tree_tree_of c) as (adj & Hrun & Ht).
  pose proof (well_rooted_reachable c adj Ht Hwr) as Hreach.
  destruct (compute_depths_fuel_enough adj (root c) (size adj))
    as (depths & Hd & Hfin); [by eapply build_tree_closed| |done|].
  { apply Ht. by left. }
  exists adj, depths. split_and!; [done|done|done|].
  intros v [n Hn]%Hreach.
  destruct (finished_complete adj (root c) depths n v Hfin Hn) as [Hv _].
  destruct (finished_distance adj (root c) depths v Hfin Hv) as [H0 Hdist].
  exists (Z.to_nat (dep depths v)). split; [|done].
  rewrite Z2Nat.id by done. by apply dep_lookup.
Qed.

Lemma build_tree_all_reachable_witness :
  ∃ adj depths,
    build_tree c4_prefix = Ok adj
    ∧ compute_depths adj 0 = Ok depths
    ∧ depths !! 14 = Some 3.
Proof.
  destruct (build_tree_all_reachable c4_prefix)
    as (adj & depths & Hrun & Hd & _).
  - intros i e Hi. simpl in Hi.
    destruct i as [|[|[|[|i]]]]; simpl in Hi; [| | | |done];
      injection Hi as <-; simpl.
    + by left.
    + right. exists 0%nat. eexists. split_and!; [lia|reflexivity|done].
    + by left.
    + right. exists 1%nat. eexists. split_and!; [lia|reflexivity|done].
  - exists adj, depths. split_and!; [exact Hrun|exact Hd|].
    vm_compute in Hrun. injection Hrun as <-.
    vm_compute in Hd. injection Hd as <-. by vm_compute.
Defined.

(** ** structural_metrics: when it raises *)

(** X20. structural_metrics raises exactly when compute_depths does: it
    returns when the root is not a key, and when the root is a key and
    every child of a node reachable from it is a key; it raises KeyError
    when the root is a key and some reachable node has a child that is
    not.  No ValueError ([max] of an empty list) and no
    ZeroDivisionError can come out of it. *)
Theorem structural_metrics_raises_iff (adj : gmap Z (gset Z)) (r : Z) :
  (adj !! r = None ∧ structural_metrics adj r = Ok no_tree)
  ∨ (is_Some (adj !! r) ∧ reach_closed adj r
     ∧ ∃ m, structural_metrics adj r = Ok m)
  ∨ (is_Some (adj !! r) ∧ ¬ reach_closed adj r
     ∧ structural_metrics adj r = Raise KeyError).
Proof.
  destruct (adj !! r) as [s|] eqn:Hr.
  2:{ left. split; [done|]. unfold structural_metrics. by rewrite Hr. }
  right.
  pose proof (compute_depths_fuel_inv adj r (size adj)) as Hinv.
  destruct (compute_depths adj r) as [depths|e|] eqn:Hrun.
  - left. unfold compute_depths in Hrun. rewrite Hrun in Hinv.
    assert (Hfin : finished adj r depths) by (apply Hinv; eauto).
    pose proof Hfin as [(Hdom & Hroot & Hsound) Hproc].
    split_and!; [eauto| |].
    + intros u v [n Hu] Huv. apply Hdom.
      destruct (finished_complete adj r depths n u Hfin Hu) as [Hdu _].
      destruct (Hproc u v Hdu Huv) as [Hdv _].
      rewrite (dep_lookup _ _ Hdv). eauto.
    + destruct (structural_metrics_run adj r depths) as (mx & _ & Hm);
        [eauto|done|done|eauto].
  - right. unfold compute_depths in Hrun. rewrite Hrun in Hinv.
    split_and!; [eauto|apply Hinv; eauto|].
    assert (e = KeyError) as ->.
    { unfold compute_depths_fuel in Hrun. rewrite Hr in Hrun.
      by eapply bfs_loop_raises. }
    unfold structural_metrics, compute_depths. by rewrite Hr, Hrun.
  - by apply compute_depths_never_out_of_fuel in Hrun.
Qed.

(** ** earliest_event_by_user: the order of the input *)

Lemma earliest_event_by_user_kept (evs : list Event) :
  NoDup (user <$> earliest_event_by_user evs)
  ∧ (∀ e, e ∈ evs →
       ∃ r, r ∈ earliest_event_by_user evs ∧ user r = user e)
  ∧ (∀ r, r ∈ earliest_event_by_user evs →
       r ∈ evs ∧ ∀ e, e ∈ evs → user e = user r → ¬ time_lt e r).
Proof.
  destruct (dedup_inv_foldl evs) as [Hkeys Hval].
  assert (Hk : keyed (foldl dedup_step [] evs)).
  { apply foldl_dedup_keyed. split; constructor. }
  assert (Husers : user <$> earliest_event_by_user evs
                   = first_appearance (user <$> evs)).
  { unfold earliest_event_by_user. by rewrite keyed_users. }
  split_and!.
  - unfold earliest_event_by_user. rewrite keyed_users by done. apply Hk.
  - intros e He.
    assert (Hin : user e ∈ user <$> earliest_event_by_user evs).
    { rewrite Husers. apply elem_of_first_appearance.
      apply list_elem_of_fmap. eauto. }
    apply list_elem_of_fmap in Hin as (r & Hr & Hin). eauto.
  - intros r Hr. unfold earliest_event_by_user, odict_values in Hr.
    apply list_elem_of_fmap in Hr as ([k v] & -> & Hin). simpl.
    destruct (Hval k v) as [_ (i & Hi & Hmin & _)].
    { apply odict_elem_of_get; [apply Hk | done]. }
    split; [by eapply list_elem_of_lookup_2|done].
Qed.

(** X21. When no two events of one user have times that compare equal,
    the events earliest_event_by_user keeps do not depend on the order
    of its input: on two lists that hold the same events it returns the
    same events, up to order.  (With equal times the first in input order
    is kept, and the order of the input shows.) *)
Theorem earliest_event_by_user_perm (evs evs' : list Event) :
  evs ≡ₚ evs' →
  (∀ e e', e ∈ evs → e' ∈ evs → user e = user e' →
     e = e' ∨ time_lt e e' ∨ time_lt e' e) →
  earliest_event_by_user evs ≡ₚ earliest_event_by_user evs'.
Proof.
  intros Hperm Hstrict.
  assert (Hone : ∀ l l', l ≡ₚ l' →
            (∀ e e', e ∈ l → e' ∈ l → user e = user e' →
               e = e' ∨ time_lt e e' ∨ time_lt e' e) →
            ∀ r, r ∈ earliest_event_by_user l →
                 r ∈ earliest_event_by_user l').
  { intros l l' Hp Hs r Hr.
    destruct (earliest_event_by_user_kept l) as (_ & _ & Hkept).
    destruct (earliest_event_by_user_kept l') as (_ & Hcover & Hkept').
    destruct (Hkept r Hr) as [Hin Hmin].
    destruct (Hcover r) as (r' & Hr' & Hu); [by rewrite <- Hp|].
    destruct (Hkept' r' Hr') as [Hin' Hmin'].
    rewrite <- Hp in Hin'.
    destruct (Hs r r' Hin Hin') as [->|[Hlt|Hlt]]; [done|done| |].
    - destruct (Hmin' r); [by rewrite <- Hp|done|done].
    - destruct (Hmin r'); done. }
  apply NoDup_Permutation.
  - eapply NoDup_fmap_1. apply earliest_event_by_user_kept.
  - eapply NoDup_fmap_1. apply earliest_event_by_user_kept.
  - intros r. split; [by apply Hone|].
    apply Hone; [done|]. intros e e'. rewrite <- !Hperm. apply Hstrict.
Qed.

Lemma earliest_event_by_user_perm_witness :
  earliest_event_by_user
    [mkEvent 1 0 5%float; mkEvent 2 0 1%float; mkEvent 1 3 2%float]
  ≡ₚ earliest_event_by_user
       [mkEvent 1 3 2%float; mkEvent 1 0 5%float; mkEvent 2 0 1%float].
Proof.
  apply earliest_event_by_user_perm.
  - apply (Permutation_app_comm [_; _] [_]).
  - intros e e' He He'.
    repeat (apply elem_of_cons in He as [->|He]);
      [..|by apply elem_of_nil in He];
      repeat (apply elem_of_cons in He' as [->|He']);
      try (by apply elem_of_nil in He'); simpl; intros Hu;
      first [ by left | by right; left | by right; right | done ].
Defined.

(** ** extract_features on a prefix *)

Section FeaturesOfPrefixes.
Import Store.

(** X22. On a prefix made by get_k_prefix or generate_prefix_cascades
    (for [k >= 0], times not NaN) extract_features has no effect at all:
    the events of the prefix are in ascending order of time already, so
    the sort changes nothing, and the features are returned with the
    store as it was. *)
Theorem extract_features_pure_on_prefix (h0 h : heap) (k : Z)
    (c p : nat) :
  prefix_of h0 h k c p →
  ∃ f pc, extract_features p h = Some (Ok f, h)
    ∧ snapshot h p = Some pc
    ∧ len (events pc) = k
    ∧ temporal_features pc = Ok (temporal f).
Proof.
  intros (sc & op & pre & _ & _ & Hop & _ & Hpre & Hc & Hr & Ht
          & Hlen & Hsorted & _).
  set (pc := mkCascade (obj_cid op) (obj_root op) (obj_publish_time op) pre).
  assert (Hsnap : snapshot h p = Some pc).
  { apply snapshot_Some. by exists op. }
  assert (Hh : sorted_heap h (obj_events op) pre = h).
  { unfold sorted_heap. rewrite sort_by_time_sorted_id by done.
    rewrite list_insert_id by done. by destruct h. }
  destruct (temporal_features_run pc) as (t & Htf & _).
  destruct (build_tree_tree_of pc) as (G & HG & _).
  destruct (structural_metrics_total G (obj_root op)) as (m & Hm).
  { by eapply build_tree_closed. }
  exists (mkFeatures t m (float_of_int (Z.of_nat (size G)))), pc.
  split_and!; try done.
  unfold extract_features. rewrite run_bind.
  rewrite (sort_events_run h p op pre Hop Hpre), Hh.
  rewrite run_bind. unfold read_cascade. rewrite Hsnap. simpl.
  unfold mret, M_ret. rewrite Htf, HG. simpl. by rewrite Hm.
Qed.

Lemma extract_features_pure_on_prefix_witness :
  ∃ h p f, get_k_prefix 0 2 sample_heap = Some (Some p, h)
    ∧ extract_features p h = Some (Ok f, h).
Proof.
  pose (evs := [mkEvent 1 0 5%float; mkEvent 2 0 1%float;
                mkEvent 3 2 2%float]).
  pose (h := prefix_heap sample_heap (mkObject 7 0 100%float 0) evs 2).
  destruct (extract_features_pure_on_prefix sample_heap h 2 0 1)
    as (f & pc & Hrun & _).
  - exists (mkCascade 7 0 100%float evs), (mkObject 7 0 100%float 3),
      [mkEvent 2 0 1%float; mkEvent 3 2 2%float].
    unfold k_earliest. split_and!; try reflexivity.
    + repeat constructor.
    + exists [mkEvent 1 0 5%float]. split.
      * apply (Permutation_app_comm [_; _] [_]).
      * intros a b Ha Hb. apply list_elem_of_singleton in Hb as ->.
        repeat (apply elem_of_cons in Ha as [->|Ha]);
          [..|by apply elem_of_nil in Ha]; reflexivity.
  - exists h, 1%nat, f. split; [reflexivity | exact Hrun].
Defined.

End FeaturesOfPrefixes.

(** ** New cascades *)

Section NewCascades.
Import Store.

(** X23. Every Cascade made without an events argument gets an empty
    list of its own ([default_factory=list]): two new cascades are two
    objects with two lists, an event added to one does not show in the
    other, and the objects and lists the store held are as they were. *)
Theorem new_Cascade_own_list (h : heap) (c1 r1 c2 r2 u p : Z)
    (t1 t2 t : float) :
  ∃ a b h2 h3,
    (a ← new_Cascade c1 r1 t1; b ← new_Cascade c2 r2 t2; mret (a, b)) h
    = Some ((a, b), h2)
    ∧ objects h !! a = None ∧ objects h !! b = None
    ∧ snapshot h2 a = Some (mkCascade c1 r1 t1 [])
    ∧ snapshot h2 b = Some (mkCascade c2 r2 t2 [])
    ∧ add_event a u p t h2 = Some (tt, h3)
    ∧ snapshot h3 a = Some (mkCascade c1 r1 t1 [mkEvent u p t])
    ∧ snapshot h3 b = Some (mkCascade c2 r2 t2 [])
    ∧ (∀ q oq, objects h !! q = Some oq → objects h3 !! q = Some oq)
    ∧ (∀ l v, lists h !! l = Some v → lists h3 !! l = Some v).
Proof.
  set (la := length (lists h)). set (a := length (objects h)).
  set (oa := mkObject c1 r1 t1 la). set (ob := mkObject c2 r2 t2 (S la)).
  set (h2 := mkHeap (lists h ++ [[]; []]) (objects h ++ [oa; ob])).
  assert (Hoa : objects h2 !! a = Some oa).
  { unfold h2. cbn [objects]. by rewrite lookup_app_r, Nat.sub_diag. }
  assert (Hob : objects h2 !! S a = Some ob).
  { unfold h2. cbn [objects]. rewrite lookup_app_r by (unfold a; lia).
    by replace (S a - length (objects h))%nat with 1%nat by (unfold a; lia). }
  assert (Hla : lists h2 !! la = Some []).
  { unfold h2. cbn [lists]. by rewrite lookup_app_r, Nat.sub_diag. }
  assert (Hlb : lists h2 !! S la = Some []).
  { unfold h2. cbn [lists]. rewrite lookup_app_r by (unfold la; lia).
    by replace (S la - length (lists h))%nat with 1%nat by (unfold la; lia). }
  exists a, (S a), h2. eexists. split_and!.
  - unfold new_Cascade, new_list, new_object, mret, M_ret, mbind, M_bind.
    simpl. rewrite !length_app, <- !app_assoc. simpl.
    unfold h2, oa, ob, a, la. by rewrite !Nat.add_1_r.
  - by apply lookup_ge_None.
  - apply lookup_ge_None. unfold a. lia.
  - apply snapshot_Some. by exists oa.
  - apply snapshot_Some. by exists ob.
  - by apply (add_event_run h2 a oa []).
  - apply snapshot_Some. exists oa. cbn [objects lists obj_events oa].
    split_and!; try done. apply list_lookup_insert_eq.
    by eapply lookup_lt_Some.
  - apply snapshot_Some. exists ob. cbn [objects lists obj_events ob].
    split_and!; try done.
    rewrite list_lookup_insert_ne by (unfold oa; simpl; lia). done.
  - intros q oq Hq. cbn [objects]. unfold h2. cbn [objects].
    by apply lookup_app_l_Some.
  - intros l v Hl. cbn [lists].
    rewrite list_lookup_insert_ne
      by (apply lookup_lt_Some in Hl; unfold oa, la; simpl; lia).
    unfold h2. cbn [lists]. by apply lookup_app_l_Some.
Qed.

End NewCascades.
